(** * rmq: the queue of a message queue on Redis (queue.go)

    A shallow embedding of [queue.go].

    - The Redis server is a finite map from keys to lists and sets; it runs
      one command at a time, those of this process and those of other
      clients ([Redis.exec]).
    - The Go client is a state monad [M] over the state of the process:
      the server's store, the schedule of what happens at the server around
      each call (commands of other clients, calls that do not get through),
      the calls made so far with their answers, the log, the channels made,
      the goroutines started, the random source and the deliveries handed to
      consumers.  A computation ends with a value, a panic, or blocked.
    - Go's [int] and [int64] are [Z]: the numbers are lengths of lists and
      counts of keys, far from the bounds of either type.
    - The functions of [queue.go] keep their names.  The goroutines of
      [consume] and [addConsumer] advance one turn at a time, from one place
      where they can be suspended to the next ([turn], [run]). *)

From Stdlib Require Import ZArith Lia Ascii.
From stdpp Require Import gmap strings list fin_maps.

Open Scope Z_scope.

(** ** The backing store *)

Module Redis.

(** A key holds a list (left end first) or a set. *)
Inductive value :=
| VList (l : list string)
| VSet (s : gset string).

(** The commands [queue.go] sends.  [BRPopLPush] is always sent with
    timeout 0 (wait for ever). *)
Inductive cmd :=
| LPush (key val : string)
| Del (key : string)
| LLen (key : string)
| SAdd (key member : string)
| SRem (key member : string)
| SMembers (key : string)
| BRPopLPush (source destination : string).

Inductive error :=
| WrongType   (* the key holds a value of another kind *)
| ConnError   (* the call did not reach the server *)
| BadReply.   (* a reply of a kind the command never gives *)

Inductive reply :=
| RInt (n : Z)
| RBulk (s : string)
| RArray (l : list string)
| RNil
| RErr (e : error).

#[global] Instance error_eq_dec : EqDecision error.
Proof. solve_decision. Defined.
#[global] Instance reply_eq_dec : EqDecision reply.
Proof. solve_decision. Defined.
#[global] Instance cmd_eq_dec : EqDecision cmd.
Proof. solve_decision. Defined.

(** A list that becomes empty is removed: Redis keeps no empty list, and
    no empty set either. *)
Definition put_list (key : string) (l : list string)
    (s : gmap string value) : gmap string value :=
  match l with
  | [] => delete key s
  | _ :: _ => <[key := VList l]> s
  end.

(** Splits a list into all but its last element, and its last element. *)
Fixpoint unsnoc (l : list string) : option (list string * string) :=
  match l with
  | [] => None
  | x :: l' =>
      match unsnoc l' with
      | None => Some ([], x)
      | Some (front, y) => Some (x :: front, y)
      end
  end.

(** RPOPLPUSH: the last element of [src] becomes the first of [dst].
    The server checks the kind of both keys before it moves anything, and
    answers nil when [src] is empty. *)
Definition rpoplpush (src dst : string) (s : gmap string value)
    : reply * gmap string value :=
  match s !! src with
  | None => (RNil, s)
  | Some (VSet _) => (RErr WrongType, s)
  | Some (VList l) =>
      match unsnoc l with
      | None => (RNil, s)
      | Some (front, x) =>
          match s !! dst with
          | Some (VSet _) => (RErr WrongType, s)
          | _ =>
              let s1 := put_list src front s in
              match s1 !! dst with
              | Some (VList d) => (RBulk x, <[dst := VList (x :: d)]> s1)
              | _ => (RBulk x, <[dst := VList [x]]> s1)
              end
          end
      end
  end.

(** One command, run atomically by the server. *)
Definition exec (c : cmd) (s : gmap string value)
    : reply * gmap string value :=
  match c with
  | LPush key val =>
      match s !! key with
      | None => (RInt 1, <[key := VList [val]]> s)
      | Some (VList l) =>
          (RInt (Z.of_nat (S (length l))), <[key := VList (val :: l)]> s)
      | Some (VSet _) => (RErr WrongType, s)
      end
  | Del key =>
      match s !! key with
      | None => (RInt 0, s)
      | Some _ => (RInt 1, delete key s)
      end
  | LLen key =>
      match s !! key with
      | None => (RInt 0, s)
      | Some (VList l) => (RInt (Z.of_nat (length l)), s)
      | Some (VSet _) => (RErr WrongType, s)
      end
  | SAdd key member =>
      match s !! key with
      | None => (RInt 1, <[key := VSet {[member]}]> s)
      | Some (VSet m) =>
          (RInt (if decide (member ∈ m) then 0 else 1),
           <[key := VSet ({[member]} ∪ m)]> s)
      | Some (VList _) => (RErr WrongType, s)
      end
  | SRem key member =>
      match s !! key with
      | None => (RInt 0, s)
      | Some (VSet m) =>
          if decide (member ∈ m)
          then (RInt 1,
                if decide (m ∖ {[member]} = ∅) then delete key s
                else <[key := VSet (m ∖ {[member]})]> s)
          else (RInt 0, s)
      | Some (VList _) => (RErr WrongType, s)
      end
  | SMembers key =>
      match s !! key with
      | None => (RArray [], s)
      | Some (VSet m) => (RArray (elements m), s)
      | Some (VList _) => (RErr WrongType, s)
      end
  | BRPopLPush src dst => rpoplpush src dst s
  end.

(** Commands of other clients that the server runs in between. *)
Definition run_others (cs : list cmd) (s : gmap string value)
    : gmap string value :=
  fold_left (fun acc c => snd (exec c acc)) cs s.

(** The list under a key, an absent key being the empty list. *)
Definition list_at (key : string) (s : gmap string value)
    : option (list string) :=
  match s !! key with
  | None => Some []
  | Some (VList l) => Some l
  | Some (VSet _) => None
  end.

End Redis.

(** ** Keys *)

(** [strings.Replace s old new 1]: the first occurrence of [old] in [s],
    scanning from the left, is replaced by [new]; [s] is returned as it is
    when [old] does not occur. *)
Fixpoint replace_first (s old new : string) : string :=
  if String.prefix old s
  then new +:+ String.substring (String.length old)
                (String.length s - String.length old)%nat s
  else match s with
       | EmptyString => EmptyString
       | String c s' => String c (replace_first s' old new)
       end.

Module Keys.
Definition connectionsKey := "rmq::connections".
Definition connectionHeartbeatTemplate :=
  "rmq::connection::{connection}::heartbeat".
Definition connectionQueuesTemplate :=
  "rmq::connection::{connection}::queues".
Definition connectionQueueConsumersTemplate :=
  "rmq::connection::{connection}::queue::{queue}::consumers".
Definition connectionQueueUnackedTemplate :=
  "rmq::connection::{connection}::queue::{queue}::unacked".
Definition queuesKey := "rmq::queues".
Definition queueReadyTemplate := "rmq::queue::{queue}::ready".
Definition phConnection := "{connection}".
Definition phQueue := "{queue}".
Definition phConsumer := "{consumer}".
End Keys.

(** ** The process *)

(** Modelled from the spec: the Delivery type is declared outside
    [queue.go]; a delivery carries its payload and the key of the unacked
    list it lives in. *)
Record Delivery := { payload : string; inUnacked : string }.

Definition newDelivery (p unackedKey : string) : Delivery :=
  {| payload := p; inUnacked := unackedKey |}.

(** Modelled from the spec: the Consumer interface is declared outside
    [queue.go]; a handler is known by an identifier, and a call of its
    [Consume] is recorded with the delivery it was given. *)
Inductive Consumer := Handler (id : nat).

(** A channel made by [make(chan Delivery, capacity)]. *)
Record Chan := { capacity : Z; buffered : list Delivery }.

(** [deliveryChan] is the address of the channel in the process's
    [chans], [None] being the nil channel.  The client is the one store of
    the process state. *)
Record Queue := {
  name : string;
  connectionName : string;
  queuesKey : string;
  consumersKey : string;
  readyKey : string;
  unackedKey : string;
  deliveryChan : option nat
}.

Inductive LogLine :=
| FailedReadyCount (queue : string) (e : Redis.error)
| FailedUnackedCount (queue : string) (e : Redis.error)
| FailedClear (queue : string) (e : Redis.error)
| FailedAddItself (name : string) (e : Redis.error)
| StartedConsuming (queue : string)
| AddConsumerUnprepared (queue : string)
| FailedAddConsumer (name : string) (e : Redis.error)
| AddedConsumer (queue name consumersKey : string)
| FailedGetConsumers (e : Redis.error)
| FailedRemoveConsumer (queue name : string) (e : Redis.error)
| FailedRemoveAllConsumers (queue : string) (e : Redis.error)
| FailedConsume (queue : string) (e : Redis.error)
| ChanSizeOutOfRange
| RandomSourceFailed.

Inductive Goroutine :=
| GoConsume (q : Queue)
| GoAddConsumer (q : Queue) (c : Consumer).

(** What happens at the server around one call of this client: the commands
    of other clients that the server runs first, and whether the call then
    fails to reach the server.  A call whose answer is lost on the way back
    is a step that has the call's own command among [others] and fails: the
    server has run the command and the client is given an error. *)
Record EnvStep := { others : list Redis.cmd; fault : bool }.

Record State := {
  store : gmap string Redis.value;
  env : list EnvStep;           (* an exhausted schedule is a quiet server *)
  calls : list (Redis.cmd * Redis.reply);   (* completed calls, oldest first *)
  logged : list LogLine;
  chans : list Chan;
  started : list Goroutine;
  entropy : list Ascii.ascii;         (* what the random source will give *)
  consumed : list (Consumer * Delivery)
}.

Inductive Outcome (A : Type) :=
| Done (a : A)
| Panic (msg : LogLine)
| Blocked.
Arguments Done {A} a.
Arguments Panic {A} msg.
Arguments Blocked {A}.

Definition M (A : Type) : Type := State -> Outcome A * State.

#[global] Instance M_ret : MRet M := fun A a st => (Done a, st).
#[global] Instance M_bind : MBind M := fun A B f m st =>
  match m st with
  | (Done a, st') => f a st'
  | (Panic msg, st') => (Panic msg, st')
  | (Blocked, st') => (Blocked, st')
  end.

Definition served (st : State) (s : gmap string Redis.value)
    (es : list EnvStep) (done : list (Redis.cmd * Redis.reply)) : State :=
  {| store := s; env := es; calls := calls st ++ done;
     logged := logged st; chans := chans st; started := started st;
     entropy := entropy st; consumed := consumed st |}.

Definition log_Printf (l : LogLine) : M unit := fun st =>
  (Done tt,
   {| store := store st; env := env st; calls := calls st;
      logged := logged st ++ [l]; chans := chans st; started := started st;
      entropy := entropy st; consumed := consumed st |}).

Definition log_Panicf {A} (l : LogLine) : M A := fun st =>
  (Panic l,
   {| store := store st; env := env st; calls := calls st;
      logged := logged st ++ [l]; chans := chans st; started := started st;
      entropy := entropy st; consumed := consumed st |}).

Definition go (g : Goroutine) : M unit := fun st =>
  (Done tt,
   {| store := store st; env := env st; calls := calls st;
      logged := logged st; chans := chans st; started := started st ++ [g];
      entropy := entropy st; consumed := consumed st |}).

Definition set_chans (cs : list Chan) (st : State) : State :=
  {| store := store st; env := env st; calls := calls st;
     logged := logged st; chans := cs; started := started st;
     entropy := entropy st; consumed := consumed st |}.

(** The largest size that [make(chan Delivery, size)] takes.  The Go
    runtime refuses a size whose buffer does not fit in what the platform can
    allocate; the bound is that of a 64-bit platform, 2^48 bytes less the 96
    of the channel's header, for elements of two words (a [Delivery] is an
    interface value).  The theorems use the bound by its name only.  A size
    in range that the machine has no memory for ends the process; that is
    not an outcome of a call and is left out. *)
Definition maxChanSize : Z := (2 ^ 48 - 96) / 16.

(** [make(chan Delivery, size)] panics ("makechan: size out of range") on a
    negative size and on a size beyond [maxChanSize]. *)
Definition make_chan (size : Z) : M nat := fun st =>
  if (size <? 0) || (maxChanSize <? size) then (Panic ChanSizeOutOfRange, st)
  else (Done (length (chans st)),
        set_chans (chans st ++ [{| capacity := size; buffered := [] |}]) st).

(** Modelled from the spec: [uniuri.NewLen n] is not part of the
    repository; it gives [n] characters of the random source and panics
    when the source cannot give that many. *)
Definition uniuri_NewLen (n : nat) : M string := fun st =>
  if decide (n ≤ length (entropy st))%nat
  then (Done (String.string_of_list_ascii (take n (entropy st))),
        {| store := store st; env := env st; calls := calls st;
           logged := logged st; chans := chans st; started := started st;
           entropy := drop n (entropy st); consumed := consumed st |})
  else (Panic RandomSourceFailed, st).

(** ** The client *)

(** A call that does not wait: the server first runs what other clients
    sent, then this command, unless the call fails on the way. *)
Definition call (c : Redis.cmd) : M Redis.reply := fun st =>
  match env st with
  | [] =>
      let (r, s') := Redis.exec c (store st) in
      (Done r, served st s' [] [(c, r)])
  | e :: es =>
      let s1 := Redis.run_others (others e) (store st) in
      if fault e
      then (Done (Redis.RErr Redis.ConnError),
            served st s1 es [(c, Redis.RErr Redis.ConnError)])
      else let (r, s') := Redis.exec c s1 in
           (Done r, served st s' es [(c, r)])
  end.

(** BRPOPLPUSH with timeout 0: while the source is empty the call waits,
    and the server goes on with the schedule; on a quiet server an empty
    source is never filled and the call does not return. *)
Fixpoint await (src dst : string) (s : gmap string Redis.value)
    (es : list EnvStep)
    : option Redis.reply * gmap string Redis.value * list EnvStep :=
  match es with
  | [] =>
      match Redis.rpoplpush src dst s with
      | (Redis.RNil, _) => (None, s, [])
      | (r, s') => (Some r, s', [])
      end
  | e :: es' =>
      let s1 := Redis.run_others (others e) s in
      if fault e then (Some (Redis.RErr Redis.ConnError), s1, es')
      else match Redis.rpoplpush src dst s1 with
           | (Redis.RNil, _) => await src dst s1 es'
           | (r, s') => (Some r, s', es')
           end
  end.

Definition call_waiting (src dst : string) : M Redis.reply := fun st =>
  match await src dst (store st) (env st) with
  | (Some r, s, es) => (Done r, served st s es [(Redis.BRPopLPush src dst, r)])
  | (None, s, es) => (Blocked, served st s es [])
  end.

(** The result of a command as the Go client gives it: [Err] is nil or the
    error, [Val] the value, the zero value when there is an error. *)
Record Cmd (A : Type) := { Err : option Redis.error; Val : A }.
Arguments Err {A} _.
Arguments Val {A} _.

Definition IntCmd (r : Redis.reply) : Cmd Z :=
  match r with
  | Redis.RInt n => {| Err := None; Val := n |}
  | Redis.RErr e => {| Err := Some e; Val := 0 |}
  | _ => {| Err := Some Redis.BadReply; Val := 0 |}
  end.

Definition StringCmd (r : Redis.reply) : Cmd string :=
  match r with
  | Redis.RBulk v => {| Err := None; Val := v |}
  | Redis.RErr e => {| Err := Some e; Val := "" |}
  | _ => {| Err := Some Redis.BadReply; Val := "" |}
  end.

Definition StringSliceCmd (r : Redis.reply) : Cmd (list string) :=
  match r with
  | Redis.RArray l => {| Err := None; Val := l |}
  | Redis.RErr e => {| Err := Some e; Val := [] |}
  | _ => {| Err := Some Redis.BadReply; Val := [] |}
  end.

Module Client.
Definition LPush (key val : string) : M (Cmd Z) :=
  r ← call (Redis.LPush key val); mret (IntCmd r).
Definition Del (key : string) : M (Cmd Z) :=
  r ← call (Redis.Del key); mret (IntCmd r).
Definition LLen (key : string) : M (Cmd Z) :=
  r ← call (Redis.LLen key); mret (IntCmd r).
Definition SAdd (key member : string) : M (Cmd Z) :=
  r ← call (Redis.SAdd key member); mret (IntCmd r).
Definition SRem (key member : string) : M (Cmd Z) :=
  r ← call (Redis.SRem key member); mret (IntCmd r).
Definition SMembers (key : string) : M (Cmd (list string)) :=
  r ← call (Redis.SMembers key); mret (StringSliceCmd r).
Definition BRPopLPush (source destination : string) : M (Cmd string) :=
  r ← call_waiting source destination; mret (StringCmd r).
End Client.

(** ** queue.go *)

Inductive QueueError :=
| FailedCountBefore (queue : string) (e : Redis.error)
| FailedReturn (e : Redis.error)
| FailedCountAfter (queue : string) (e : Redis.error)
| FoundNewUnacked (queue : string) (n : Z).

Definition newQueue (name connectionName queuesKey : string) : Queue :=
  let unackedKey :=
    replace_first Keys.connectionQueueUnackedTemplate
      Keys.phConnection connectionName in
  let unackedKey := replace_first unackedKey Keys.phQueue name in
  let consumersKey :=
    replace_first Keys.connectionQueueConsumersTemplate
      Keys.phConnection connectionName in
  let consumersKey := replace_first consumersKey Keys.phQueue name in
  let readyKey := replace_first Keys.queueReadyTemplate Keys.phQueue name in
  {| name := name;
     connectionName := connectionName;
     queuesKey := queuesKey;
     consumersKey := consumersKey;
     readyKey := readyKey;
     unackedKey := unackedKey;
     deliveryChan := None |}.

Definition String (queue : Queue) : string :=
  "[" +:+ name queue +:+ " conn:" +:+ connectionName queue +:+ "]".

Definition Publish (queue : Queue) (payload : string)
    : M (option Redis.error) :=
  result ← Client.LPush (readyKey queue) payload;
  mret (Err result).

Definition Purge (queue : Queue) : M bool :=
  result ← Client.Del (readyKey queue);
  match Err result with
  | Some _ => mret false
  | None => mret (0 <? Val result)
  end.

Definition ReadyCount (queue : Queue) : M Z :=
  result ← Client.LLen (readyKey queue);
  match Err result with
  | Some e => log_Printf (FailedReadyCount (String queue) e);; mret 0
  | None => mret (Val result)
  end.

Definition UnackedCount (queue : Queue) : M Z :=
  result ← Client.LLen (unackedKey queue);
  match Err result with
  | Some e => log_Printf (FailedUnackedCount (String queue) e);; mret 0
  | None => mret (Val result)
  end.

(** The loop of [ReturnUnackedDeliveries] with [n] rounds left: the error
    on which it returns early, or [None] when all rounds are done. *)
Fixpoint return_rounds (queue : Queue) (n : nat) : M (option Redis.error) :=
  match n with
  | O => mret None
  | S n' =>
      result ← Client.BRPopLPush (unackedKey queue) (readyKey queue);
      match Err result with
      | Some e => mret (Some e)
      | None => return_rounds queue n'
      end
  end.

Definition ReturnUnackedDeliveries (queue : Queue)
    : M (Z * option QueueError) :=
  result ← Client.LLen (unackedKey queue);
  match Err result with
  | Some e => mret (0, Some (FailedCountBefore (String queue) e))
  | None =>
      let unackedCount := Val result in
      stopped ← return_rounds queue (Z.to_nat unackedCount);
      match stopped with
      | Some e => mret (0, Some (FailedReturn e))
      | None =>
          result ← Client.LLen (unackedKey queue);
          match Err result with
          | Some e => mret (0, Some (FailedCountAfter (String queue) e))
          | None =>
              if decide (Val result ≠ 0)
              then mret (0, Some (FoundNewUnacked (String queue) (Val result)))
              else mret (unackedCount, None)
          end
      end
  end.

Definition CloseInConnection (queue : Queue) : M (option Redis.error) :=
  result ← Client.Del (unackedKey queue);
  mret (Err result).

Definition Clear (queue : Queue) : M Z :=
  result ← Client.Del (readyKey queue);
  match Err result with
  | Some e => log_Printf (FailedClear (String queue) e);; mret 0
  | None => mret (Val result)
  end.

Definition set_deliveryChan (queue : Queue) (ch : option nat) : Queue :=
  {| name := name queue;
     connectionName := connectionName queue;
     queuesKey := queuesKey queue;
     consumersKey := consumersKey queue;
     readyKey := readyKey queue;
     unackedKey := unackedKey queue;
     deliveryChan := ch |}.

(** The queue is a pointer in Go; the call gives back the queue as the
    call left it. *)
Definition PrepareConsumption (bufferSize : Z) (queue : Queue)
    : M (bool * Queue) :=
  match deliveryChan queue with
  | Some _ => mret (false, queue)
  | None =>
      result ← Client.SAdd (queuesKey queue) (name queue);
      match Err result with
      | Some e =>
          log_Printf (FailedAddItself (name queue) e);;
          mret (false, queue)
      | None =>
          ch ← make_chan bufferSize;
          let queue := set_deliveryChan queue (Some ch) in
          Client.LPush (queuesKey queue) (name queue);;
          log_Printf (StartedConsuming (String queue));;
          go (GoConsume queue);;
          mret (true, queue)
      end
  end.

Definition AddConsumer (tag : string) (consumer : Consumer) (queue : Queue)
    : M string :=
  match deliveryChan queue with
  | None => log_Panicf (AddConsumerUnprepared (String queue))
  | Some _ => mret tt
  end;;
  token ← uniuri_NewLen 6;
  let name := tag +:+ "-" +:+ token in
  result ← Client.SAdd (consumersKey queue) name;
  match Err result with
  | Some e => log_Printf (FailedAddConsumer name e);; mret ""
  | None =>
      go (GoAddConsumer queue consumer);;
      log_Printf (AddedConsumer (String queue) name (consumersKey queue));;
      mret name
  end.

Definition GetConsumers (queue : Queue) : M (list string) :=
  result ← Client.SMembers (consumersKey queue);
  match Err result with
  | Some e => log_Printf (FailedGetConsumers e);; mret []
  | None => mret (Val result)
  end.

Definition RemoveConsumer (queue : Queue) (name : string) : M bool :=
  result ← Client.SRem (consumersKey queue) name;
  match Err result with
  | Some e =>
      log_Printf (FailedRemoveConsumer (String queue) name e);; mret false
  | None => mret (0 <? Val result)
  end.

Definition RemoveAllConsumers (queue : Queue) : M Z :=
  result ← Client.Del (consumersKey queue);
  match Err result with
  | Some e =>
      log_Printf (FailedRemoveAllConsumers (String queue) e);; mret 0
  | None => mret (Val result)
  end.

(** *** The goroutines *)

(** Where the goroutine running [consume] stands: about to pop, about to
    send the delivery it popped, or after the loop. *)
Inductive Fetcher :=
| AtPop
| AtSend (d : Delivery)
| Returned.

(** [ch <- d]: a send on the nil channel, or on a channel whose buffer is
    full, does not proceed. *)
Definition chan_send (ch : option nat) (d : Delivery) : M unit := fun st =>
  match ch with
  | None => (Blocked, st)
  | Some a =>
      match chans st !! a with
      | None => (Blocked, st)
      | Some c =>
          if decide (Z.of_nat (length (buffered c)) < capacity c)
          then (Done tt,
                set_chans (<[a := {| capacity := capacity c;
                                     buffered := buffered c ++ [d] |}]>
                             (chans st)) st)
          else (Blocked, st)
      end
  end.

(** [consume], from one place where the goroutine can be suspended to the
    next.  No statement of the loop leaves it. *)
Definition consume (queue : Queue) (at_ : Fetcher) : M Fetcher :=
  match at_ with
  | AtPop =>
      result ← Client.BRPopLPush (readyKey queue) (unackedKey queue);
      match Err result with
      | Some e =>
          log_Printf (FailedConsume (String queue) e);;
          mret AtPop
      | None => mret (AtSend (newDelivery (Val result) (unackedKey queue)))
      end
  | AtSend d => chan_send (deliveryChan queue) d;; mret AtPop
  | Returned => mret Returned
  end.

Definition Consume (consumer : Consumer) (d : Delivery) (st : State) : State :=
  {| store := store st; env := env st; calls := calls st;
     logged := logged st; chans := chans st; started := started st;
     entropy := entropy st; consumed := consumed st ++ [(consumer, d)] |}.

(** The process with the goroutine of [consume]. *)
Record Sys := { proc : State; fetcher : Fetcher }.

Definition fetcher_turn (queue : Queue) (sys : Sys) : Sys :=
  match consume queue (fetcher sys) (proc sys) with
  | (Done f, st) => {| proc := st; fetcher := f |}
  | (_, st) => {| proc := st; fetcher := fetcher sys |}
  end.

(** One round of [addConsumer]: the worker receives the oldest delivery of
    the channel, or, when the buffer is empty, the one the fetcher is
    sending, and hands it to the consumer. *)
Definition addConsumer (queue : Queue) (consumer : Consumer) (sys : Sys)
    : Sys :=
  match deliveryChan queue with
  | None => sys
  | Some a =>
      match chans (proc sys) !! a with
      | None => sys
      | Some c =>
          match buffered c with
          | d :: rest =>
              {| proc :=
                   Consume consumer d
                     (set_chans (<[a := {| capacity := capacity c;
                                           buffered := rest |}]>
                                   (chans (proc sys))) (proc sys));
                 fetcher := fetcher sys |}
          | [] =>
              match fetcher sys with
              | AtSend d =>
                  {| proc := Consume consumer d (proc sys); fetcher := AtPop |}
              | _ => sys
              end
          end
      end
  end.

Inductive Turn :=
| OfFetcher
| OfWorker (consumer : Consumer)
| OfPublisher (payload : string).

Definition turn (queue : Queue) (t : Turn) (sys : Sys) : Sys :=
  match t with
  | OfFetcher => fetcher_turn queue sys
  | OfWorker consumer => addConsumer queue consumer sys
  | OfPublisher p =>
      {| proc := snd (Publish queue p (proc sys)); fetcher := fetcher sys |}
  end.

Definition run (queue : Queue) (turns : list Turn) (sys : Sys) : Sys :=
  fold_left (fun s t => turn queue t s) turns sys.

(** ** What the statements speak about *)

(** A step of the schedule at which no other client sends anything and the
    call goes through. *)
Definition quiet (e : EnvStep) : Prop := others e = [] ∧ fault e = false.

(** The next [n] calls are served on a quiet server. *)
Definition calm (n : nat) (es : list EnvStep) : Prop :=
  Forall quiet (take n es).

(** The store on which the server runs the next call of this client. *)
Definition arriving (st : State) : gmap string Redis.value :=
  match env st with
  | [] => store st
  | e :: _ => Redis.run_others (others e) (store st)
  end.

(** Whether the next call fails to reach the server. *)
Definition failing (st : State) : bool :=
  match env st with
  | [] => false
  | e :: _ => fault e
  end.

(** Everything but the two lists of the queue is the same in both stores. *)
Definition same_elsewhere (queue : Queue) (s s' : gmap string Redis.value)
    : Prop :=
  ∀ k, k ≠ readyKey queue → k ≠ unackedKey queue → s' !! k = s !! k.

(** The last character of a string. *)
Fixpoint last_char (s : string) : option Ascii.ascii :=
  match s with
  | EmptyString => None
  | String.String c EmptyString => Some c
  | String.String _ s' => last_char s'
  end.

(** Whether a character occurs in a string. *)
Fixpoint has_char (c : Ascii.ascii) (s : string) : bool :=
  match s with
  | EmptyString => false
  | String.String a s' => if Ascii.ascii_dec c a then true else has_char c s'
  end.

(** The set under a key, an absent key being the empty set. *)
Definition set_at (key : string) (s : gmap string Redis.value)
    : option (gset string) :=
  match s !! key with
  | None => Some ∅
  | Some (Redis.VSet m) => Some m
  | Some (Redis.VList _) => None
  end.

(** The order in which right-pops give the elements of a list. *)
Definition pop_order (l : list string) : list string := rev l.

(** The payloads the fetcher took, oldest first: the answers to its
    pop-pushes from ready to unacked. *)
Definition taken (queue : Queue) (done : list (Redis.cmd * Redis.reply))
    : list string :=
  omap (fun cr =>
          match cr with
          | (Redis.BRPopLPush src dst, Redis.RBulk v) =>
              if decide (src = readyKey queue ∧ dst = unackedKey queue)
              then Some v else None
          | _ => None
          end) done.

(** The payloads handed to consumers, oldest first. *)
Definition handled (st : State) : list string :=
  map (fun cd => payload (snd cd)) (consumed st).

Definition in_channel (queue : Queue) (st : State) : list Delivery :=
  match deliveryChan queue with
  | None => []
  | Some a =>
      match chans st !! a with
      | None => []
      | Some c => buffered c
      end
  end.

Definition in_hand (f : Fetcher) : list Delivery :=
  match f with
  | AtSend d => [d]
  | _ => []
  end.

(** The payloads taken and not yet handed to a consumer, oldest first. *)
Definition pipeline (queue : Queue) (sys : Sys) : list string :=
  map payload (in_channel queue (proc sys) ++ in_hand (fetcher sys)).

Definition published (turns : list Turn) : list string :=
  omap (fun t => match t with OfPublisher p => Some p | _ => None end) turns.

(** The pop-pushes that move [l], last element first, with their answers. *)
Definition moves (src dst : string) (l : list string)
    : list (Redis.cmd * Redis.reply) :=
  map (fun x => (Redis.BRPopLPush src dst, Redis.RBulk x)) (rev l).

(** The state of a process that runs alone on a server that does not
    fail, as far as the order of the payloads goes: the unacked list holds
    what the fetcher took, the youngest first, in front of [before]; what it
    took is what the consumers were handed and what waits in the channel or
    in the fetcher's hand; and what it took, followed by the ready list in
    the order of its right-pops, is [order]. *)
Definition settled (queue : Queue) (before order : list string) (sys : Sys)
    : Prop :=
  env (proc sys) = []
  ∧ ∃ rd,
      Redis.list_at (readyKey queue) (store (proc sys)) = Some rd
      ∧ Redis.list_at (unackedKey queue) (store (proc sys))
        = Some (rev (taken queue (calls (proc sys))) ++ before)
      ∧ taken queue (calls (proc sys))
        = handled (proc sys) ++ pipeline queue sys
      ∧ taken queue (calls (proc sys)) ++ pop_order rd = order.

(** A fetcher turn, a second one, and a turn of the worker. *)
Definition round (consumer : Consumer) : list Turn :=
  [OfFetcher; OfFetcher; OfWorker consumer].

Definition rounds (consumer : Consumer) (n : nat) : list Turn :=
  concat (replicate n (round consumer)).

(** Turns that empty the channel and the fetcher's hand and then take and
    hand over what the ready list holds. *)
Definition drain (queue : Queue) (consumer : Consumer) (sys : Sys)
    : list Turn :=
  replicate (S (length (in_channel queue (proc sys)))) (OfWorker consumer)
  ++ rounds consumer
       (length (default [] (Redis.list_at (readyKey queue)
                              (store (proc sys))))).

(** The fetcher is about to pop, the channel exists and is empty, the
    server is quiet, and the ready list holds [rd]. *)
Definition poised (queue : Queue) (rd : list string) (sys : Sys) : Prop :=
  env (proc sys) = []
  ∧ (∃ a, deliveryChan queue = Some a ∧ is_Some (chans (proc sys) !! a))
  ∧ in_channel queue (proc sys) = []
  ∧ fetcher sys = AtPop
  ∧ Redis.list_at (readyKey queue) (store (proc sys)) = Some rd
  ∧ is_Some (Redis.list_at (unackedKey queue) (store (proc sys))).

(** The channel of the queue has capacity [bound] and holds no more than
    that; the deliveries in it, in the fetcher's hand and handed to consumers
    carry the unacked key of the queue. *)
Definition well_channelled (queue : Queue) (a : nat) (bound : Z) (sys : Sys)
    : Prop :=
  ∃ ch, chans (proc sys) !! a = Some ch
        ∧ capacity ch = bound
        ∧ Z.of_nat (length (buffered ch)) ≤ bound
        ∧ Forall (fun d => inUnacked d = unackedKey queue)
            (buffered ch ++ in_hand (fetcher sys)
             ++ map snd (consumed (proc sys))).

(** ** A queue and some states to run the code on *)

Definition things : Queue :=
  newQueue "things" "conn-abc" "rmq::connection::conn-abc::queues".

Definition boot (s : gmap string Redis.value) (es : list EnvStep)
    (random : string) : State :=
  {| store := s; env := es; calls := []; logged := []; chans := [];
     started := []; entropy := String.list_ascii_of_string random;
     consumed := [] |}.

Definition idle : State := boot ∅ [] "".

(** The ready list holds three payloads, published in the order a, b, c. *)
Definition loaded : State :=
  boot {[ readyKey things := Redis.VList ["c"; "b"; "a"] ]} [] "".

(** Another client deletes the queues key of the connection while
    [PrepareConsumption] is between its two calls. *)
Definition contended : State :=
  boot ∅ [ {| others := []; fault := false |};
           {| others := [Redis.Del (queuesKey things)]; fault := false |} ] "".

(** The state in which [PrepareConsumption 10] leaves the idle process, and
    the queue as it is then. *)
Definition prepared : State := snd (PrepareConsumption 10 things idle).

Definition things_consuming : Queue := set_deliveryChan things (Some 0%nat).

(** The same with six characters in the random source. *)
Definition prepared_random : State :=
  {| store := store prepared; env := []; calls := calls prepared;
     logged := logged prepared; chans := chans prepared;
     started := started prepared;
     entropy := String.list_ascii_of_string "x7Kq2mZZ";
     consumed := [] |}.

Definition at_rest : EnvStep := {| others := []; fault := false |}.

(** The fetcher of the connection took a and then b; c is still ready. *)
Definition in_flight_store : gmap string Redis.value :=
  {[ unackedKey things := Redis.VList ["b"; "a"];
     readyKey things := Redis.VList ["c"] ]}.

Definition in_flight : State := boot in_flight_store [] "".

(** As [in_flight], but a fetcher that still runs takes a delivery once
    the unacked list has been moved back. *)
Definition in_flight_raced : State :=
  boot in_flight_store
    [ at_rest; at_rest; at_rest;
      {| others := [Redis.BRPopLPush (readyKey things) (unackedKey things)];
         fault := false |} ] "".

(** As [in_flight], but the third call does not reach the server. *)
Definition in_flight_cut : State :=
  boot in_flight_store
    [ at_rest; at_rest; {| others := []; fault := true |} ] "".

(** A prepared process with a channel of capacity 10, the ready list
    holding a, b and c as [loaded] has them. *)
Definition loaded_consuming : State :=
  {| store := store loaded; env := []; calls := []; logged := [];
     chans := [{| capacity := 10; buffered := [] |}];
     started := [GoConsume things_consuming]; entropy := []; consumed := [] |}.

(** The ready list holds a, b and c; the next two calls do not reach the
    server. *)
Definition loaded_cut : State :=
  boot (store loaded)
    [ {| others := []; fault := true |}; {| others := []; fault := true |} ] "".

(** The ready list holds a, b and c; the server runs the next push of d and
    its answer is lost. *)
Definition loaded_answer_lost : State :=
  boot (store loaded)
    [ {| others := [Redis.LPush (readyKey things) "d"]; fault := true |} ] "".

(** A prepared process with a channel of capacity 1 and nothing ready. *)
Definition idle_consuming : State :=
  {| store := ∅; env := []; calls := []; logged := [];
     chans := [{| capacity := 1; buffered := [] |}];
     started := [GoConsume things_consuming]; entropy := []; consumed := [] |}.

(** Publishers, the fetcher and one worker taking turns. *)
Definition busy : list Turn :=
  [ OfPublisher "a"; OfPublisher "b"; OfFetcher; OfPublisher "c";
    OfFetcher; OfFetcher; OfFetcher; OfWorker (Handler 0);
    OfPublisher "d"; OfFetcher ].

(** The process of [in_flight] with a consumers set of one name. *)
Definition in_flight_registered : State :=
  boot (<[consumersKey things := Redis.VSet {[ "worker-x7Kq2m" ]}]>
          in_flight_store) [] "".

(** A prepared process whose consumers set holds two names. *)
Definition two_consumers : State :=
  boot {[ consumersKey things := Redis.VSet {[ "w-aaaaaa"; "w-bbbbbb" ]} ]}
    [] "".

(** ** The store *)

Section RedisFacts.
Import Redis.
Implicit Types (s : gmap string value) (l d : list string).

Lemma unsnoc_snoc l x : unsnoc (l ++ [x]) = Some (l, x).
Proof.
  induction l as [|y l IH]; simpl; [done|].
  by rewrite IH.
Qed.

Lemma list_at_snoc key s l x :
  list_at key s = Some (l ++ [x]) → s !! key = Some (VList (l ++ [x])).
Proof.
  unfold list_at. destruct (s !! key) as [[l'|?]|]; try done.
  - by intros [= ->].
  - intros [= H]. by destruct l.
Qed.

Lemma list_at_put_list key l s : list_at key (put_list key l s) = Some l.
Proof.
  unfold list_at, put_list. destruct l.
  - by rewrite lookup_delete_eq.
  - by rewrite lookup_insert_eq.
Qed.

Lemma lookup_put_list_ne key k l s :
  key ≠ k → put_list key l s !! k = s !! k.
Proof.
  intros. unfold put_list. destruct l.
  - by rewrite lookup_delete_ne.
  - by rewrite lookup_insert_ne.
Qed.

Lemma list_at_put_list_ne key k l s :
  key ≠ k → list_at k (put_list key l s) = list_at k s.
Proof. intros. unfold list_at. by rewrite lookup_put_list_ne. Qed.

Lemma list_at_insert key l s : list_at key (<[key := VList l]> s) = Some l.
Proof. unfold list_at. by rewrite lookup_insert_eq. Qed.

Lemma list_at_insert_ne key k v s :
  key ≠ k → list_at k (<[key := v]> s) = list_at k s.
Proof. intros. unfold list_at. by rewrite lookup_insert_ne. Qed.

(** The move of one element between two lists. *)
Lemma rpoplpush_lists src dst s l x d :
  src ≠ dst →
  list_at src s = Some (l ++ [x]) →
  list_at dst s = Some d →
  ∃ s', rpoplpush src dst s = (RBulk x, s')
        ∧ list_at src s' = Some l
        ∧ list_at dst s' = Some (x :: d)
        ∧ ∀ k, k ≠ src → k ≠ dst → s' !! k = s !! k.
Proof.
  intros Hne Hsrc Hdst. apply list_at_snoc in Hsrc.
  unfold rpoplpush. rewrite Hsrc, unsnoc_snoc.
  assert (Hd' : list_at dst (put_list src l s) = Some d)
    by (by rewrite list_at_put_list_ne).
  unfold list_at in Hdst, Hd'.
  destruct (s !! dst) as [[d0|?]|] eqn:E; try done;
    destruct (put_list src l s !! dst) as [[d1|?]|] eqn:E1; try done;
    injection Hd' as <-; eexists; (split; [reflexivity|]);
    rewrite list_at_insert, list_at_insert_ne, list_at_put_list by done;
    (repeat split; [done..|]); intros k ? ?;
    by rewrite lookup_insert_ne, lookup_put_list_ne.
Qed.

Lemma rpoplpush_empty src dst s :
  list_at src s = Some [] → rpoplpush src dst s = (RNil, s).
Proof.
  unfold list_at, rpoplpush.
  destruct (s !! src) as [[l|?]|]; try done. by intros [= ->].
Qed.

Lemma lpush_list key v s l :
  list_at key s = Some l →
  exec (LPush key v) s
  = (RInt (Z.of_nat (S (length l))), <[key := VList (v :: l)]> s).
Proof.
  unfold list_at. simpl.
  destruct (s !! key) as [[l'|?]|]; try done; by intros [= <-].
Qed.

Lemma llen_list key s l :
  list_at key s = Some l → exec (LLen key) s = (RInt (Z.of_nat (length l)), s).
Proof.
  unfold list_at. simpl.
  destruct (s !! key) as [[l'|?]|]; try done; by intros [= <-].
Qed.

Lemma del_exec key s :
  exec (Del key) s
  = (RInt (if decide (is_Some (s !! key)) then 1 else 0), delete key s).
Proof.
  simpl. destruct (s !! key) eqn:E.
  - rewrite decide_True by eauto. done.
  - rewrite decide_False by (by intros [? ?]).
    by rewrite delete_id.
Qed.

End RedisFacts.

(** ** The client's calls *)

Lemma call_served c st :
  call c st
  = (let rs := if failing st
               then (Redis.RErr Redis.ConnError, arriving st)
               else Redis.exec c (arriving st) in
     (Done (fst rs), served st (snd rs) (tail (env st)) [(c, fst rs)])).
Proof.
  unfold call, failing, arriving.
  destruct (env st) as [|e es]; simpl.
  - by destruct (Redis.exec c (store st)).
  - destruct (fault e); [done|].
    by destruct (Redis.exec c _).
Qed.

Lemma calm_next n st :
  calm (S n) (env st) →
  arriving st = store st ∧ failing st = false ∧ calm n (tail (env st)).
Proof.
  unfold calm, arriving, failing.
  destruct (env st) as [|e es]; simpl.
  - intros _. by rewrite take_nil.
  - intros H. apply Forall_cons in H as [[-> ->] H]. done.
Qed.

Lemma calm_nil n : calm n [].
Proof. unfold calm. rewrite take_nil. constructor. Qed.

Lemma await_served src dst st r s' :
  failing st = false →
  Redis.rpoplpush src dst (arriving st) = (r, s') →
  r ≠ Redis.RNil →
  await src dst (store st) (env st) = (Some r, s', tail (env st)).
Proof.
  unfold failing, arriving. intros Hf Hr Hnil.
  destruct (env st) as [|e es]; simpl in *.
  - rewrite Hr. by destruct r.
  - rewrite Hf, Hr. by destruct r.
Qed.

Lemma await_failing src dst st :
  failing st = true →
  await src dst (store st) (env st)
  = (Some (Redis.RErr Redis.ConnError), arriving st, tail (env st)).
Proof.
  unfold failing, arriving. intros Hf.
  destruct (env st) as [|e es]; simpl in *; [done|].
  by rewrite Hf.
Qed.

(** The blocking pop-push on a server that does not fail and finds the source
    filled. *)
Lemma BRPopLPush_moves src dst st l x d :
  src ≠ dst →
  failing st = false →
  Redis.list_at src (arriving st) = Some (l ++ [x]) →
  Redis.list_at dst (arriving st) = Some d →
  ∃ s', Client.BRPopLPush src dst st
        = (Done {| Err := None; Val := x |},
           served st s' (tail (env st))
             [(Redis.BRPopLPush src dst, Redis.RBulk x)])
        ∧ Redis.list_at src s' = Some l
        ∧ Redis.list_at dst s' = Some (x :: d)
        ∧ ∀ k, k ≠ src → k ≠ dst → s' !! k = arriving st !! k.
Proof.
  intros Hne Hf Hsrc Hdst.
  destruct (rpoplpush_lists src dst _ l x d Hne Hsrc Hdst)
    as (s' & Hr & H1 & H2 & H3).
  exists s'. split; [|done].
  unfold Client.BRPopLPush, mbind, M_bind, call_waiting.
  by rewrite (await_served src dst st _ s' Hf Hr).
Qed.

Lemma BRPopLPush_failing src dst st :
  failing st = true →
  Client.BRPopLPush src dst st
  = (Done {| Err := Some Redis.ConnError; Val := "" |},
     served st (arriving st) (tail (env st))
       [(Redis.BRPopLPush src dst, Redis.RErr Redis.ConnError)]).
Proof.
  intros Hf. unfold Client.BRPopLPush, mbind, M_bind, call_waiting.
  by rewrite (await_failing src dst st Hf).
Qed.

Lemma LLen_list key st l :
  failing st = false →
  Redis.list_at key (arriving st) = Some l →
  Client.LLen key st
  = (Done {| Err := None; Val := Z.of_nat (length l) |},
     served st (arriving st) (tail (env st))
       [(Redis.LLen key, Redis.RInt (Z.of_nat (length l)))]).
Proof.
  intros Hf Hl. unfold Client.LLen, mbind, M_bind.
  rewrite call_served, Hf. cbv zeta.
  by rewrite (llen_list key _ l Hl).
Qed.

Lemma Del_served key st :
  failing st = false →
  Client.Del key st
  = (Done {| Err := None;
             Val := if decide (is_Some (arriving st !! key)) then 1 else 0 |},
     served st (delete key (arriving st)) (tail (env st))
       [(Redis.Del key,
         Redis.RInt (if decide (is_Some (arriving st !! key)) then 1 else 0))]).
Proof.
  intros Hf. unfold Client.Del, mbind, M_bind.
  rewrite call_served, Hf. cbv zeta.
  by rewrite del_exec.
Qed.

Lemma Del_failing key st :
  failing st = true →
  Client.Del key st
  = (Done {| Err := Some Redis.ConnError; Val := 0 |},
     served st (arriving st) (tail (env st))
       [(Redis.Del key, Redis.RErr Redis.ConnError)]).
Proof.
  intros Hf. unfold Client.Del, mbind, M_bind.
  by rewrite call_served, Hf.
Qed.

Lemma SAdd_served key member st :
  failing st = false →
  (∀ l, arriving st !! key ≠ Some (Redis.VList l)) →
  ∃ n s', Client.SAdd key member st
          = (Done {| Err := None; Val := n |},
             served st s' (tail (env st))
               [(Redis.SAdd key member, Redis.RInt n)])
          ∧ (∃ members, s' !! key = Some (Redis.VSet members)
                        ∧ member ∈ members)
          ∧ ∀ k, k ≠ key → s' !! k = arriving st !! k.
Proof.
  intros Hf Hl. unfold Client.SAdd, mbind, M_bind.
  rewrite call_served, Hf. cbv zeta. simpl.
  destruct (arriving st !! key) as [[l|m]|] eqn:E.
  - by destruct (Hl l).
  - eexists _, _. split; [reflexivity|]. simpl. split.
    + eexists. rewrite lookup_insert_eq. split; [done|set_solver].
    + intros k ?. by rewrite lookup_insert_ne.
  - eexists _, _. split; [reflexivity|]. simpl. split.
    + eexists. rewrite lookup_insert_eq. split; [done|set_solver].
    + intros k ?. by rewrite lookup_insert_ne.
Qed.

Lemma length_string_of_list_ascii l :
  String.length (String.string_of_list_ascii l) = length l.
Proof. induction l as [|a l IH]; simpl; [done|by rewrite IH]. Qed.

(** ** Purge and Clear *)

(** C9: [Purge] sends one delete of the ready key; unless the call fails
    the key is gone afterwards; and the answer is true exactly when the
    delete removed the key, that is when something was stored under it and
    nothing is any more. *)
Theorem Purge_true_iff_removed queue st :
  ∃ b st', Purge queue st = (Done b, st')
    ∧ map fst (calls st') = map fst (calls st) ++ [Redis.Del (readyKey queue)]
    ∧ store st' = (if failing st then arriving st
                   else delete (readyKey queue) (arriving st))
    ∧ (b = true ↔ is_Some (arriving st !! readyKey queue)
                  ∧ store st' !! readyKey queue = None).
Proof.
  unfold Purge, mbind, M_bind.
  destruct (failing st) eqn:Hf.
  - rewrite (Del_failing _ _ Hf). simpl.
    eexists _, _. split; [reflexivity|]. simpl.
    rewrite map_app. split; [done|]. split; [done|]. split; [done|].
    intros [[v Hv] Hn]. congruence.
  - rewrite (Del_served _ _ Hf). simpl.
    eexists _, _. split; [reflexivity|]. simpl.
    rewrite map_app. split; [done|]. split; [done|]. split.
    + intros Hb. split; [|apply lookup_delete_eq].
      by destruct (decide (is_Some (arriving st !! readyKey queue))).
    + intros [Hs _]. by rewrite decide_True.
Qed.

Lemma Purge_true_iff_removed_witness :
  ∃ st', Purge things loaded = (Done true, st')
         ∧ store st' !! readyKey things = None.
Proof.
  destruct (Purge_true_iff_removed things loaded)
    as (b & st' & Hrun & _ & _ & Hb).
  assert (b = true) as ->.
  { vm_compute in Hrun. by injection Hrun as <- _. }
  exists st'. split; [done|]. by apply Hb.
Defined.

(** C7, as the code has it: [Clear] sends one delete of the ready key, the
    very command [Purge] sends.  Unless the call fails the ready list is
    gone afterwards, the answer is the number of keys removed and nothing is
    logged; when the call fails the answer is 0 and one line, which names
    the queue and the error, is logged.  No other key is touched. *)
Theorem Clear_deletes_ready queue st :
  ∃ n st', Clear queue st = (Done n, st')
    ∧ map fst (calls st') = map fst (calls st) ++ [Redis.Del (readyKey queue)]
    ∧ store st' = (if failing st then arriving st
                   else delete (readyKey queue) (arriving st))
    ∧ n = (if failing st then 0
           else if decide (is_Some (arriving st !! readyKey queue))
                then 1 else 0)
    ∧ logged st'
      = logged st
        ++ (if failing st
            then [FailedClear (String queue) Redis.ConnError] else [])
    ∧ store st' = store (snd (Purge queue st))
    ∧ ∀ k, k ≠ readyKey queue → store st' !! k = arriving st !! k.
Proof.
  unfold Clear, Purge, mbind, M_bind.
  destruct (failing st) eqn:Hf.
  - rewrite (Del_failing _ _ Hf). simpl.
    eexists _, _. split; [reflexivity|]. simpl.
    rewrite map_app. repeat split; done.
  - rewrite (Del_served _ _ Hf). simpl.
    eexists _, _. split; [reflexivity|]. simpl.
    rewrite map_app, app_nil_r. repeat split; try done.
    intros k ?. by rewrite lookup_delete_ne.
Qed.

Lemma Clear_deletes_ready_witness :
  (∃ st', Clear things loaded = (Done 1, st')
          ∧ logged st' = []
          ∧ store st' !! unackedKey things
            = store loaded !! unackedKey things)
  ∧ (∃ st', Clear things loaded_cut = (Done 0, st')
            ∧ logged st'
              = [FailedClear "[things conn:conn-abc]" Redis.ConnError]
            ∧ store st' !! readyKey things
              = Some (Redis.VList ["c"; "b"; "a"])).
Proof.
  split.
  - destruct (Clear_deletes_ready things loaded)
      as (n & st' & Hrun & _ & _ & Hn & Hlog & _ & Hk).
    assert (n = 1) as -> by (rewrite Hn; reflexivity).
    exists st'. split; [done|]. split; [by rewrite Hlog|]. by apply Hk.
  - destruct (Clear_deletes_ready things loaded_cut)
      as (n & st' & Hrun & _ & Hs & Hn & Hlog & _ & _).
    assert (n = 0) as -> by (rewrite Hn; reflexivity).
    exists st'. split; [done|]. split; [by rewrite Hlog|].
    rewrite Hs. reflexivity.
Defined.

(** C7, as the specification words it, does not hold: after [Clear] the
    ready list that held three payloads is gone. *)
Lemma Clear_keeps_ready_fails :
  ¬ (∀ queue st,
       store (snd (Clear queue st)) !! readyKey queue
       = store st !! readyKey queue).
Proof.
  intros H. specialize (H things loaded).
  vm_compute in H. discriminate H.
Qed.

(** ** PrepareConsumption *)

Lemma call_Done c st : ∃ r st', call c st = (Done r, st').
Proof. rewrite call_served. by eexists _, _. Qed.

Lemma PrepareConsumption_consuming bufferSize queue st queue' st' :
  PrepareConsumption bufferSize queue st = (Done (true, queue'), st') →
  is_Some (deliveryChan queue').
Proof.
  unfold PrepareConsumption.
  destruct (deliveryChan queue) eqn:Hch; [by intros [= ]|].
  unfold Client.SAdd, Client.LPush, mbind, M_bind, mret, M_ret.
  destruct (call_Done (Redis.SAdd (queuesKey queue) (name queue)) st)
    as (r & st1 & ->).
  destruct (Err (IntCmd r)); [by intros [= ]|].
  unfold make_chan.
  destruct ((bufferSize <? 0) || (maxChanSize <? bufferSize));
    [by intros [= ]|].
  match goal with
  | |- context [call ?c ?s] =>
      destruct (call_Done c s) as (r2 & st2 & ->)
  end.
  simpl. intros [= <- _]. simpl. eauto.
Qed.

(** C4: on a queue in consuming mode, that is one whose delivery channel
    is not nil, [PrepareConsumption] answers false and leaves the queue and
    the whole process state, the store and the list of calls included, as
    they were. *)
Theorem PrepareConsumption_again bufferSize queue st :
  is_Some (deliveryChan queue) →
  PrepareConsumption bufferSize queue st = (Done (false, queue), st).
Proof.
  intros [ch Hch]. unfold PrepareConsumption. by rewrite Hch.
Qed.

Lemma PrepareConsumption_again_witness :
  PrepareConsumption 10 things idle = (Done (true, things_consuming), prepared)
  ∧ PrepareConsumption 3 things_consuming prepared
    = (Done (false, things_consuming), prepared).
Proof.
  assert (H : PrepareConsumption 10 things idle
              = (Done (true, things_consuming), prepared))
    by (vm_compute; reflexivity).
  split; [exact H|].
  apply PrepareConsumption_again.
  exact (PrepareConsumption_consuming _ _ _ _ _ H).
Defined.

(** What a first [PrepareConsumption] sends: the set-add of the queue name
    to the queues key, and then a left-push of the same name to the same
    key, whose answer is not looked at. *)
Lemma PrepareConsumption_sends bufferSize queue st :
  deliveryChan queue = None →
  failing st = false →
  (∀ l, arriving st !! queuesKey queue ≠ Some (Redis.VList l)) →
  0 ≤ bufferSize ≤ maxChanSize →
  ∃ queue' st',
    PrepareConsumption bufferSize queue st = (Done (true, queue'), st')
    ∧ map fst (calls st')
      = map fst (calls st)
        ++ [Redis.SAdd (queuesKey queue) (name queue);
            Redis.LPush (queuesKey queue) (name queue)].
Proof.
  intros Hch Hf Hl Hb. unfold PrepareConsumption. rewrite Hch.
  unfold mbind, M_bind.
  destruct (SAdd_served (queuesKey queue) (name queue) st Hf Hl)
    as (n & s' & -> & _). simpl.
  unfold make_chan.
  destruct ((bufferSize <? 0) || (maxChanSize <? bufferSize)) eqn:E; [lia|].
  unfold Client.LPush, mbind, M_bind. rewrite call_served. simpl.
  eexists _, _. split; [reflexivity|]. simpl.
  rewrite !map_app, <- app_assoc. done.
Qed.

(** C6 does not hold of the code: the calls of [PrepareConsumption] on the
    idle process are the set-add and a left-push to the queues key.  Here the
    server turns the push down, the key holding a set; when another client
    deletes the key between the two calls, the push goes through and the
    queues key holds a list. *)
Theorem PrepareConsumption_pushes_queue_name :
  calls (snd (PrepareConsumption 10 things idle))
  = [(Redis.SAdd (queuesKey things) "things", Redis.RInt 1);
     (Redis.LPush (queuesKey things) "things", Redis.RErr Redis.WrongType)]
  ∧ fst (PrepareConsumption 10 things contended)
    = Done (true, things_consuming)
  ∧ store (snd (PrepareConsumption 10 things contended))
      !! queuesKey things
    = Some (Redis.VList ["things"]).
Proof. vm_compute. done. Qed.

(** ** AddConsumer *)

(** C8: on a queue that was not prepared [AddConsumer] logs the
    diagnostic and panics, before it has sent anything.  On a prepared queue
    whose set-add goes through it answers the tag, a dash and the six
    characters of the random source, has put that name in the consumers set
    and has started the worker. *)
Theorem AddConsumer_name tag consumer queue st :
  (deliveryChan queue = None →
   ∃ st', AddConsumer tag consumer queue st
          = (Panic (AddConsumerUnprepared (String queue)), st')
          ∧ logged st' = logged st ++ [AddConsumerUnprepared (String queue)]
          ∧ store st' = store st ∧ calls st' = calls st
          ∧ started st' = started st)
  ∧ (is_Some (deliveryChan queue) →
     (6 ≤ length (entropy st))%nat →
     failing st = false →
     (∀ l, arriving st !! consumersKey queue ≠ Some (Redis.VList l)) →
     ∃ token st',
       AddConsumer tag consumer queue st = (Done (tag +:+ "-" +:+ token), st')
       ∧ String.length token = 6%nat
       ∧ (∃ members, store st' !! consumersKey queue
                     = Some (Redis.VSet members)
                     ∧ (tag +:+ "-" +:+ token) ∈ members)
       ∧ map fst (calls st')
         = map fst (calls st)
           ++ [Redis.SAdd (consumersKey queue) (tag +:+ "-" +:+ token)]
       ∧ started st' = started st ++ [GoAddConsumer queue consumer]).
Proof.
  split.
  - intros Hch. unfold AddConsumer. rewrite Hch.
    eexists. split; [reflexivity|]. done.
  - intros [ch Hch] Hrand Hf Hl. unfold AddConsumer. rewrite Hch.
    unfold mbind, M_bind, mret, M_ret, uniuri_NewLen.
    rewrite decide_True by done.
    set (token := String.string_of_list_ascii (take 6 (entropy st))).
    set (st1 := {| store := store st; env := env st; calls := calls st;
                   logged := logged st; chans := chans st;
                   started := started st; entropy := drop 6 (entropy st);
                   consumed := consumed st |}).
    destruct (SAdd_served (consumersKey queue) (tag +:+ "-" +:+ token) st1)
      as (n & s' & -> & Hin & _); [done..|].
    simpl. exists token. eexists. split; [reflexivity|]. simpl.
    split; [|split; [done|split; [by rewrite map_app|done]]].
    unfold token. rewrite length_string_of_list_ascii.
    by apply length_take_le.
Qed.

Lemma AddConsumer_name_witness :
  (∃ st', AddConsumer "worker" (Handler 0) things idle
          = (Panic (AddConsumerUnprepared "[things conn:conn-abc]"), st'))
  ∧ (∃ st', AddConsumer "worker" (Handler 0) things_consuming prepared_random
            = (Done "worker-x7Kq2m", st')).
Proof.
  destruct (AddConsumer_name "worker" (Handler 0) things idle) as [Hp _].
  destruct (AddConsumer_name "worker" (Handler 0) things_consuming
              prepared_random) as [_ Hd].
  split.
  - destruct (Hp eq_refl) as (st' & H & _). by exists st'.
  - destruct Hd as (token & st' & H & _).
    + by exists 0%nat.
    + vm_compute. lia.
    + reflexivity.
    + intros l. vm_compute. discriminate.
    + exists st'. rewrite H. do 2 f_equal.
      vm_compute in H. by injection H as <- _.
Defined.

(** ** ReturnUnackedDeliveries *)

Lemma served_served st s1 es1 d1 s2 es2 d2 :
  served (served st s1 es1 d1) s2 es2 d2 = served st s2 es2 (d1 ++ d2).
Proof. unfold served. simpl. by rewrite app_assoc. Qed.

Lemma drop_tail {A} n (l : list A) : drop n (tail l) = drop (S n) l.
Proof. destruct l; simpl; [by rewrite drop_nil|done]. Qed.

Lemma same_elsewhere_trans queue s1 s2 s3 :
  same_elsewhere queue s1 s2 → same_elsewhere queue s2 s3 →
  same_elsewhere queue s1 s3.
Proof. intros H1 H2 k ? ?. rewrite H2, H1; done. Qed.

Lemma moves_snoc src dst l x :
  moves src dst (l ++ [x])
  = (Redis.BRPopLPush src dst, Redis.RBulk x) :: moves src dst l.
Proof. unfold moves. by rewrite rev_unit. Qed.

(** On a quiet server the rounds move the last elements of the unacked
    list, the last one first, to the left end of the ready list. *)
Lemma return_rounds_calm queue u1 :
  unackedKey queue ≠ readyKey queue →
  ∀ st u2 r,
    calm (length u1) (env st) →
    Redis.list_at (unackedKey queue) (store st) = Some (u2 ++ u1) →
    Redis.list_at (readyKey queue) (store st) = Some r →
    ∃ s', return_rounds queue (length u1) st
          = (Done None,
             served st s' (drop (length u1) (env st))
               (moves (unackedKey queue) (readyKey queue) u1))
          ∧ Redis.list_at (unackedKey queue) s' = Some u2
          ∧ Redis.list_at (readyKey queue) s' = Some (u1 ++ r)
          ∧ same_elsewhere queue (store st) s'.
Proof.
  intros Hne. induction u1 as [|x u1 IH] using rev_ind; intros st u2 r Hc Hu Hr.
  - exists (store st). simpl. rewrite app_nil_r in Hu.
    split; [|done]. unfold mret, M_ret, served. rewrite app_nil_r.
    by destruct st.
  - rewrite length_app, Nat.add_1_r in Hc |- *.
    destruct (calm_next _ _ Hc) as (Harr & Hf & Hc').
    rewrite app_assoc in Hu.
    destruct (BRPopLPush_moves (unackedKey queue) (readyKey queue) st
                (u2 ++ u1) x r Hne Hf) as (s1 & Hrun & Hu1 & Hr1 & Hk1);
      [by rewrite Harr..|].
    simpl. unfold mbind, M_bind. rewrite Hrun. simpl.
    destruct (IH (served st s1 (tail (env st))
                    [(Redis.BRPopLPush (unackedKey queue) (readyKey queue),
                      Redis.RBulk x)]) u2 (x :: r))
      as (s' & Hrun' & Hu' & Hr' & Hk'); [done..|].
    exists s'. rewrite Hrun'. simpl. rewrite served_served, drop_tail.
    rewrite moves_snoc. split; [done|]. split; [done|].
    split; [by rewrite <- app_assoc|].
    intros k ? ?. rewrite Hk' by done. simpl. rewrite Hk1 by done.
    by rewrite Harr.
Qed.

Lemma return_rounds_add queue n m st :
  return_rounds queue (n + m) st
  = match return_rounds queue n st with
    | (Done None, st') => return_rounds queue m st'
    | other => other
    end.
Proof.
  revert st. induction n as [|n IH]; intros st; [done|].
  simpl. unfold mbind, M_bind.
  destruct (Client.BRPopLPush _ _ st) as [[res| |] st1]; try done.
  destruct (Err res); [done|]. apply IH.
Qed.

(** C1: let the unacked key hold the list [u] and the ready key the list
    [r] when [ReturnUnackedDeliveries] is called, and let the server be
    quiet for the first length call and the moves.  Then the function asks
    for the length of unacked and sends one blocking pop-push from unacked to
    ready for each element of [u]; after these moves unacked is empty, ready
    holds [u] in front of [r], and no other key has changed.  It then asks
    for the length again: when unacked is still empty it answers the number
    of elements moved and no error; when other clients have meanwhile left
    [n] elements there, n not 0, it answers 0 and the error that says so. *)
Theorem ReturnUnackedDeliveries_moves_all queue st u r :
  unackedKey queue ≠ readyKey queue →
  Redis.list_at (unackedKey queue) (store st) = Some u →
  Redis.list_at (readyKey queue) (store st) = Some r →
  calm (S (length u)) (env st) →
  ∃ moved,
    Redis.list_at (unackedKey queue) (store moved) = Some []
    ∧ Redis.list_at (readyKey queue) (store moved) = Some (u ++ r)
    ∧ same_elsewhere queue (store st) (store moved)
    ∧ calls moved
      = calls st
        ++ (Redis.LLen (unackedKey queue), Redis.RInt (Z.of_nat (length u)))
           :: moves (unackedKey queue) (readyKey queue) u
    ∧ env moved = drop (S (length u)) (env st)
    ∧ ∀ left,
        failing moved = false →
        Redis.list_at (unackedKey queue) (arriving moved) = Some left →
        ReturnUnackedDeliveries queue st
        = (Done (if decide (left = [])
                 then (Z.of_nat (length u), None)
                 else (0, Some (FoundNewUnacked (String queue)
                                  (Z.of_nat (length left))))),
           served moved (arriving moved) (tail (env moved))
             [(Redis.LLen (unackedKey queue),
               Redis.RInt (Z.of_nat (length left)))]).
Proof.
  intros Hne Hu Hr Hc.
  destruct (calm_next _ _ Hc) as (Harr & Hf & Hc').
  remember (served st (arriving st) (tail (env st))
              [(Redis.LLen (unackedKey queue),
                Redis.RInt (Z.of_nat (length u)))]) as st1 eqn:Est1.
  assert (Hs1 : store st1 = store st) by (by rewrite Est1).
  assert (He1 : env st1 = tail (env st)) by (by rewrite Est1).
  destruct (return_rounds_calm queue u Hne st1 [] r)
    as (s' & Hrun & Hu' & Hr' & Hk'); [by rewrite ?He1, ?Hs1..|].
  remember (served st1 s' (drop (length u) (env st1))
              (moves (unackedKey queue) (readyKey queue) u))
    as moved eqn:Em.
  exists moved. split; [by rewrite Em|]. split; [by rewrite Em|].
  split; [by rewrite Em, <- Hs1|].
  split; [by rewrite Em, Est1; simpl; rewrite <- app_assoc|].
  split; [by rewrite Em; simpl; rewrite He1, drop_tail|].
  intros left Hf2 Hleft.
  unfold ReturnUnackedDeliveries, mbind, M_bind.
  rewrite (LLen_list _ st u Hf) by (by rewrite Harr).
  rewrite <- Est1. simpl. rewrite Nat2Z.id, Hrun.
  rewrite (LLen_list _ _ left Hf2 Hleft). simpl.
  by destruct left.
Qed.

Lemma ReturnUnackedDeliveries_moves_all_witness :
  fst (ReturnUnackedDeliveries things in_flight) = Done (2, None)
  ∧ fst (ReturnUnackedDeliveries things in_flight_raced)
    = Done (0, Some (FoundNewUnacked "[things conn:conn-abc]" 1)).
Proof.
  split.
  - destruct (ReturnUnackedDeliveries_moves_all things in_flight
                ["b"; "a"] ["c"])
      as (moved & Hu & _ & _ & _ & He & H).
    + vm_compute. discriminate.
    + reflexivity.
    + reflexivity.
    + apply calm_nil.
    + assert (Hf : failing moved = false)
        by (unfold failing; rewrite He; reflexivity).
      assert (Ha : arriving moved = store moved)
        by (unfold arriving; rewrite He; reflexivity).
      rewrite (H [] Hf) by (by rewrite Ha). reflexivity.
  - destruct (ReturnUnackedDeliveries_moves_all things in_flight_raced
                ["b"; "a"] ["c"])
      as (moved & Hu & Hr & _ & _ & He & H).
    + vm_compute. discriminate.
    + reflexivity.
    + reflexivity.
    + repeat constructor.
    + assert (Hf : failing moved = false)
        by (unfold failing; rewrite He; reflexivity).
      destruct (rpoplpush_lists (readyKey things) (unackedKey things)
                  (store moved) ["b"; "a"] "c" [])
        as (s' & Hpop & _ & Hleft & _); [vm_compute; discriminate|done..|].
      assert (Ha : arriving moved = s').
      { assert (He' : env moved
                      = [{| others := [Redis.BRPopLPush (readyKey things)
                                         (unackedKey things)];
                            fault := false |}])
          by (rewrite He; reflexivity).
        unfold arriving. rewrite He'. unfold Redis.run_others.
        cbn [others fold_left Redis.exec]. by rewrite Hpop. }
      rewrite (H ["c"] Hf) by (by rewrite Ha). reflexivity.
Defined.

(** C10: let the unacked key hold [u2 ++ u1] with [u2] not empty, and let
    the server be quiet for the length call and the moves of [u1], the call
    after these failing on the way.  Then [ReturnUnackedDeliveries] answers
    the count 0 with the error of the failed call, although it has moved the
    [length u1] elements of [u1]: they stay in the ready list, in front of
    what it held, and [u2] stays in the unacked list. *)
Theorem ReturnUnackedDeliveries_fails_midway queue st u2 u1 r pre e rest :
  unackedKey queue ≠ readyKey queue →
  Redis.list_at (unackedKey queue) (store st) = Some (u2 ++ u1) →
  Redis.list_at (readyKey queue) (store st) = Some r →
  u2 ≠ [] →
  env st = pre ++ e :: rest →
  Forall quiet pre →
  length pre = S (length u1) →
  others e = [] →
  fault e = true →
  ∃ st', ReturnUnackedDeliveries queue st
         = (Done (0, Some (FailedReturn Redis.ConnError)), st')
         ∧ Redis.list_at (unackedKey queue) (store st') = Some u2
         ∧ Redis.list_at (readyKey queue) (store st') = Some (u1 ++ r)
         ∧ same_elsewhere queue (store st) (store st')
         ∧ env st' = rest.
Proof.
  intros Hne Hu Hr Hu2 Henv Hpre Hlen Hoth Hfault.
  assert (Hc : calm (S (length u1)) (env st)).
  { unfold calm. by rewrite Henv, <- Hlen, take_app_length. }
  assert (Hd : drop (S (length u1)) (env st) = e :: rest).
  { by rewrite Henv, <- Hlen, drop_app_length. }
  destruct (calm_next _ _ Hc) as (Harr & Hf & Hc').
  remember (served st (arriving st) (tail (env st))
              [(Redis.LLen (unackedKey queue),
                Redis.RInt (Z.of_nat (length (u2 ++ u1))))]) as st1 eqn:Est1.
  assert (Hs1 : store st1 = store st) by (by rewrite Est1).
  assert (He1 : env st1 = tail (env st)) by (by rewrite Est1).
  destruct (return_rounds_calm queue u1 Hne st1 u2 r)
    as (s' & Hrun & Hu' & Hr' & Hk'); [by rewrite ?He1, ?Hs1..|].
  remember (served st1 s' (drop (length u1) (env st1))
              (moves (unackedKey queue) (readyKey queue) u1))
    as moved eqn:Em.
  assert (Hem : env moved = e :: rest).
  { rewrite Em. simpl. by rewrite He1, drop_tail. }
  assert (Hfm : failing moved = true).
  { unfold failing. by rewrite Hem. }
  assert (Ham : arriving moved = s').
  { unfold arriving. rewrite Hem, Hoth. by rewrite Em. }
  unfold ReturnUnackedDeliveries, mbind, M_bind.
  rewrite (LLen_list _ st (u2 ++ u1) Hf) by (by rewrite Harr).
  rewrite <- Est1. simpl. rewrite Nat2Z.id.
  rewrite length_app, Nat.add_comm, return_rounds_add, Hrun.
  destruct u2 as [|y u2]; [done|]. simpl.
  unfold mbind, M_bind. rewrite (BRPopLPush_failing _ _ moved Hfm). simpl.
  eexists. split; [reflexivity|]. simpl. rewrite Ham, Hem.
  rewrite Hs1 in Hk'. done.
Qed.

Lemma ReturnUnackedDeliveries_fails_midway_witness :
  ∃ st', ReturnUnackedDeliveries things in_flight_cut
         = (Done (0, Some (FailedReturn Redis.ConnError)), st')
         ∧ Redis.list_at (unackedKey things) (store st') = Some ["b"]
         ∧ Redis.list_at (readyKey things) (store st') = Some ["a"; "c"].
Proof.
  destruct (ReturnUnackedDeliveries_fails_midway things in_flight_cut
              ["b"] ["a"] ["c"] [at_rest; at_rest]
              {| others := []; fault := true |} [])
    as (st' & H & Hu & Hr & _).
  - vm_compute. discriminate.
  - reflexivity.
  - reflexivity.
  - discriminate.
  - reflexivity.
  - repeat constructor.
  - reflexivity.
  - reflexivity.
  - reflexivity.
  - by exists st'.
Defined.

(** ** The fetcher and the worker *)

Lemma taken_app queue d1 d2 :
  taken queue (d1 ++ d2) = taken queue d1 ++ taken queue d2.
Proof. apply omap_app. Qed.

Lemma taken_move queue x :
  taken queue [(Redis.BRPopLPush (readyKey queue) (unackedKey queue),
                Redis.RBulk x)] = [x].
Proof. unfold taken. simpl. by rewrite decide_True. Qed.

Lemma served_same st : env st = [] → served st (store st) [] [] = st.
Proof.
  intros He. unfold served. rewrite app_nil_r.
  destruct st; simpl in *. by rewrite He.
Qed.

Lemma quiet_server st :
  env st = [] → failing st = false ∧ arriving st = store st.
Proof. intros He. unfold failing, arriving. by rewrite He. Qed.

(** [Publish] pushes the payload on the left of the ready list. *)
Lemma Publish_pushes_left queue p st rd :
  failing st = false →
  Redis.list_at (readyKey queue) (arriving st) = Some rd →
  Publish queue p st
  = (Done None,
     served st (<[readyKey queue := Redis.VList (p :: rd)]> (arriving st))
       (tail (env st))
       [(Redis.LPush (readyKey queue) p,
         Redis.RInt (Z.of_nat (S (length rd))))]).
Proof.
  intros Hf Hrd. unfold Publish, Client.LPush, mbind, M_bind.
  rewrite call_served, Hf. cbv zeta.
  by rewrite (lpush_list _ p _ rd Hrd).
Qed.

(** The fetcher pops the oldest payload, the rightmost of the ready list,
    and the same command pushes it on the left of the unacked list. *)
Lemma fetcher_pops_right queue st l x ua :
  readyKey queue ≠ unackedKey queue →
  failing st = false →
  Redis.list_at (readyKey queue) (arriving st) = Some (l ++ [x]) →
  Redis.list_at (unackedKey queue) (arriving st) = Some ua →
  ∃ s', fetcher_turn queue {| proc := st; fetcher := AtPop |}
        = {| proc := served st s' (tail (env st))
                       [(Redis.BRPopLPush (readyKey queue) (unackedKey queue),
                         Redis.RBulk x)];
             fetcher := AtSend (newDelivery x (unackedKey queue)) |}
        ∧ Redis.list_at (readyKey queue) s' = Some l
        ∧ Redis.list_at (unackedKey queue) s' = Some (x :: ua)
        ∧ ∀ k, k ≠ readyKey queue → k ≠ unackedKey queue →
               s' !! k = arriving st !! k.
Proof.
  intros Hne Hf Hrd Hua.
  destruct (BRPopLPush_moves _ _ st l x ua Hne Hf Hrd Hua)
    as (s' & Hrun & H1 & H2 & H3).
  exists s'. split; [|done].
  unfold fetcher_turn, consume. simpl. unfold mbind, M_bind.
  by rewrite Hrun.
Qed.

Lemma fetcher_waits queue st :
  env st = [] →
  Redis.list_at (readyKey queue) (store st) = Some [] →
  fetcher_turn queue {| proc := st; fetcher := AtPop |}
  = {| proc := st; fetcher := AtPop |}.
Proof.
  intros He Hrd. unfold fetcher_turn, consume. simpl.
  unfold Client.BRPopLPush, mbind, M_bind, call_waiting.
  rewrite He. simpl. rewrite (rpoplpush_empty _ _ _ Hrd).
  by rewrite served_same.
Qed.

Lemma in_channel_sent queue st a c d :
  deliveryChan queue = Some a →
  chans st !! a = Some c →
  in_channel queue
    (set_chans (<[a := {| capacity := capacity c;
                          buffered := buffered c ++ [d] |}]> (chans st)) st)
  = in_channel queue st ++ [d].
Proof.
  intros Hch Hc. unfold in_channel. rewrite Hch, Hc. simpl.
  rewrite list_lookup_insert_eq; [done|].
  by eapply lookup_lt_Some.
Qed.

Lemma in_channel_received queue st a c rest :
  deliveryChan queue = Some a →
  chans st !! a = Some c →
  in_channel queue
    (set_chans (<[a := {| capacity := capacity c; buffered := rest |}]>
                  (chans st)) st)
  = rest.
Proof.
  intros Hch Hc. unfold in_channel. rewrite Hch. simpl.
  rewrite list_lookup_insert_eq; [done|].
  by eapply lookup_lt_Some.
Qed.

Lemma handled_Consume c d st :
  handled (Consume c d st) = handled st ++ [payload d].
Proof. unfold handled. simpl. by rewrite map_app. Qed.

Lemma in_channel_Consume queue c d st :
  in_channel queue (Consume c d st) = in_channel queue st.
Proof. reflexivity. Qed.

(** Every turn keeps the process settled; a turn of the publisher puts its
    payload at the end of the order. *)
Lemma turn_settled queue before order t sys :
  readyKey queue ≠ unackedKey queue →
  settled queue before order sys →
  settled queue before (order ++ published [t]) (turn queue t sys).
Proof.
  intros Hne Hs.
  assert (Hsame : settled queue before (order ++ []) sys)
    by (by rewrite app_nil_r).
  destruct Hs as (He & rd & Hrd & Hua & Htk & Hord).
  destruct sys as [st f]. simpl in He, Hrd, Hua, Htk, Hord.
  destruct (quiet_server st He) as [Hf Harr].
  destruct t as [|c|p]; simpl.
  - destruct f as [|d|].
    + destruct rd as [|x l _] using rev_ind.
      * by rewrite fetcher_waits.
      * destruct (fetcher_pops_right queue st l x
                    (rev (taken queue (calls st)) ++ before) Hne Hf)
          as (s' & -> & H1 & H2 & _); [by rewrite Harr..|].
        split; [by simpl; rewrite He|]. exists l. simpl.
        rewrite taken_app, taken_move, rev_unit, app_nil_r.
        split; [done|]. split; [done|]. split.
        -- rewrite Htk. unfold pipeline. simpl.
           rewrite !app_nil_r, map_app, app_assoc. done.
        -- rewrite <- Hord. unfold pop_order.
           by rewrite rev_unit, <- app_assoc.
    + unfold fetcher_turn, consume, chan_send, mbind, M_bind, mret, M_ret.
      cbn [proc fetcher].
      destruct (deliveryChan queue) as [a|] eqn:Hch; [|exact Hsame].
      destruct (chans st !! a) as [ch|] eqn:Hc; [|exact Hsame].
      destruct (decide _); [|exact Hsame].
      split; [done|]. exists rd. cbn [proc fetcher store calls].
      rewrite app_nil_r. split; [done|]. split; [done|]. split; [|done].
      change (calls (set_chans ?c ?s)) with (calls s).
      change (handled (set_chans ?c ?s)) with (handled s).
      rewrite Htk. unfold pipeline. cbn [proc fetcher].
      rewrite (in_channel_sent _ _ _ _ _ Hch Hc). simpl.
      by rewrite app_nil_r.
    + exact Hsame.
  - unfold addConsumer. cbn [proc fetcher].
    destruct (deliveryChan queue) as [a|] eqn:Hch; [|exact Hsame].
    destruct (chans st !! a) as [ch|] eqn:Hc; [|exact Hsame].
    destruct (buffered ch) as [|d rest] eqn:Hb.
    + destruct f as [|d|]; try exact Hsame.
      split; [done|]. exists rd. cbn [proc fetcher].
      change (calls (Consume ?c ?d ?s)) with (calls s).
      change (store (Consume ?c ?d ?s)) with (store s).
      rewrite app_nil_r. split; [done|]. split; [done|]. split; [|done].
      rewrite Htk, handled_Consume. unfold pipeline. cbn [proc fetcher].
      rewrite in_channel_Consume.
      assert (Hin : in_channel queue st = [])
        by (unfold in_channel; by rewrite Hch, Hc).
      rewrite Hin. simpl. by rewrite app_nil_r.
    + split; [done|]. exists rd. cbn [proc fetcher].
      change (calls (Consume ?c ?d ?s)) with (calls s).
      change (store (Consume ?c ?d ?s)) with (store s).
      change (calls (set_chans ?c ?s)) with (calls s).
      change (store (set_chans ?c ?s)) with (store s).
      rewrite app_nil_r. split; [done|]. split; [done|]. split; [|done].
      rewrite Htk, handled_Consume. unfold pipeline. cbn [proc fetcher].
      rewrite in_channel_Consume.
      assert (Hin : in_channel queue st = d :: rest)
        by (unfold in_channel; by rewrite Hch, Hc).
      rewrite Hin, (in_channel_received _ _ _ _ _ Hch Hc).
      change (handled (set_chans ?c ?s)) with (handled s).
      simpl. by rewrite <- app_assoc.
  - rewrite (Publish_pushes_left queue p st rd Hf) by (by rewrite Harr).
    split; [by simpl; rewrite He|].
    exists (p :: rd). cbn [proc fetcher store calls snd served].
    rewrite taken_app. simpl. rewrite app_nil_r, Harr.
    rewrite list_at_insert, list_at_insert_ne by done.
    split; [done|]. split; [done|]. split; [done|].
    rewrite <- Hord. unfold pop_order. simpl. by rewrite app_assoc.
Qed.

Lemma run_cons queue t turns sys :
  run queue (t :: turns) sys = run queue turns (turn queue t sys).
Proof. reflexivity. Qed.

Lemma run_app queue turns1 turns2 sys :
  run queue (turns1 ++ turns2) sys
  = run queue turns2 (run queue turns1 sys).
Proof. apply fold_left_app. Qed.

Lemma run_settled queue before turns :
  readyKey queue ≠ unackedKey queue →
  ∀ order sys,
    settled queue before order sys →
    settled queue before (order ++ published turns) (run queue turns sys).
Proof.
  intros Hne. induction turns as [|t turns IH]; intros order sys Hs.
  - simpl. by rewrite app_nil_r.
  - rewrite run_cons.
    replace (published (t :: turns)) with (published [t] ++ published turns)
      by (by destruct t).
    rewrite app_assoc. apply IH. by apply turn_settled.
Qed.

(** A process that has taken nothing yet is settled. *)
Lemma settled_start queue st rd before :
  env st = [] →
  Redis.list_at (readyKey queue) (store st) = Some rd →
  Redis.list_at (unackedKey queue) (store st) = Some before →
  taken queue (calls st) = [] →
  consumed st = [] →
  in_channel queue st = [] →
  settled queue before (pop_order rd) {| proc := st; fetcher := AtPop |}.
Proof.
  intros He Hrd Hua Htk Hco Hin. split; [done|]. exists rd. simpl.
  rewrite Htk. unfold handled, pipeline. simpl. by rewrite Hco, Hin.
Qed.

Lemma ReturnUnackedDeliveries_quiet queue st u r :
  unackedKey queue ≠ readyKey queue →
  env st = [] →
  Redis.list_at (unackedKey queue) (store st) = Some u →
  Redis.list_at (readyKey queue) (store st) = Some r →
  ∃ st', ReturnUnackedDeliveries queue st
         = (Done (Z.of_nat (length u), None), st')
         ∧ Redis.list_at (unackedKey queue) (store st') = Some []
         ∧ Redis.list_at (readyKey queue) (store st') = Some (u ++ r)
         ∧ same_elsewhere queue (store st) (store st')
         ∧ env st' = [].
Proof.
  intros Hne He Hu Hr.
  destruct (quiet_server st He) as [Hf Harr].
  remember (served st (arriving st) (tail (env st))
              [(Redis.LLen (unackedKey queue),
                Redis.RInt (Z.of_nat (length u)))]) as st1 eqn:Est1.
  assert (Hs1 : store st1 = store st) by (by rewrite Est1).
  assert (He1 : env st1 = []) by (by rewrite Est1; simpl; rewrite He).
  destruct (return_rounds_calm queue u Hne st1 [] r)
    as (s' & Hrun & Hu' & Hr' & Hk');
    [rewrite He1; apply calm_nil|by rewrite Hs1..|].
  remember (served st1 s' (drop (length u) (env st1))
              (moves (unackedKey queue) (readyKey queue) u))
    as moved eqn:Em.
  assert (Hem : env moved = []).
  { rewrite Em. simpl. by rewrite He1, drop_nil. }
  destruct (quiet_server moved Hem) as [Hfm Harrm].
  assert (Hsm : store moved = s') by (by rewrite Em).
  unfold ReturnUnackedDeliveries, mbind, M_bind.
  rewrite (LLen_list _ st u Hf) by (by rewrite Harr).
  rewrite <- Est1. simpl. rewrite Nat2Z.id, Hrun.
  rewrite (LLen_list _ moved [] Hfm) by (by rewrite Harrm, Hsm).
  simpl. eexists. split; [reflexivity|]. simpl.
  rewrite Harrm, Hsm, Hem. rewrite Hs1 in Hk'. done.
Qed.

(** C2: let a process that has taken nothing yet, its unacked list empty,
    run alone on a server that does not fail, its fetcher, its workers and
    its publishers taking turns in any order.  Then the unacked list holds
    what the fetcher took, the youngest on the left, as its left-pushes put
    it; [ReturnUnackedDeliveries] answers their number, empties the unacked
    list, and leaves the ready list such that its right-pops give what was
    ready before and then the deliveries taken, in the order in which they
    were taken. *)
Theorem repatriation_keeps_order queue st rd0 turns :
  readyKey queue ≠ unackedKey queue →
  env st = [] →
  Redis.list_at (readyKey queue) (store st) = Some rd0 →
  Redis.list_at (unackedKey queue) (store st) = Some [] →
  taken queue (calls st) = [] →
  consumed st = [] →
  in_channel queue st = [] →
  ∃ rd st' rd',
    let sys := run queue turns {| proc := st; fetcher := AtPop |} in
    let tk := taken queue (calls (proc sys)) in
    Redis.list_at (unackedKey queue) (store (proc sys)) = Some (rev tk)
    ∧ Redis.list_at (readyKey queue) (store (proc sys)) = Some rd
    ∧ ReturnUnackedDeliveries queue (proc sys)
      = (Done (Z.of_nat (length tk), None), st')
    ∧ Redis.list_at (unackedKey queue) (store st') = Some []
    ∧ Redis.list_at (readyKey queue) (store st') = Some rd'
    ∧ pop_order rd' = pop_order rd ++ tk.
Proof.
  intros Hne He Hrd Hua Htk Hco Hin.
  pose proof (run_settled queue [] turns Hne _ _
                (settled_start queue st rd0 [] He Hrd Hua Htk Hco Hin))
    as (He' & rd & Hrd' & Hua' & _ & _).
  rewrite app_nil_r in Hua'.
  destruct (ReturnUnackedDeliveries_quiet queue _ _ rd
              (not_eq_sym Hne) He' Hua' Hrd')
    as (st' & Hrun & Hu2 & Hr2 & _).
  exists rd, st', (rev (taken queue (calls (proc
    (run queue turns {| proc := st; fetcher := AtPop |})))) ++ rd).
  cbv zeta. rewrite length_rev in Hrun.
  do 5 (split; [done|]).
  unfold pop_order. by rewrite rev_app_distr, rev_involutive.
Qed.

Lemma repatriation_keeps_order_witness :
  ∃ st',
    taken things_consuming
      (calls (proc (run things_consuming
                      [OfFetcher; OfFetcher; OfFetcher; OfFetcher]
                      {| proc := loaded_consuming; fetcher := AtPop |})))
    = ["a"; "b"]
    ∧ ReturnUnackedDeliveries things_consuming
        (proc (run things_consuming
                 [OfFetcher; OfFetcher; OfFetcher; OfFetcher]
                 {| proc := loaded_consuming; fetcher := AtPop |}))
      = (Done (2, None), st')
    ∧ pop_order <$> Redis.list_at (readyKey things_consuming) (store st')
      = Some ["c"; "a"; "b"].
Proof.
  destruct (repatriation_keeps_order things_consuming loaded_consuming
              ["c"; "b"; "a"]
              [OfFetcher; OfFetcher; OfFetcher; OfFetcher])
    as (rd & st' & rd' & Hua & Hrd & Hrun & _ & Hrd' & Hord).
  - vm_compute. discriminate.
  - reflexivity.
  - reflexivity.
  - reflexivity.
  - reflexivity.
  - reflexivity.
  - reflexivity.
  - cbv zeta in *.
    assert (Htk : taken things_consuming
              (calls (proc (run things_consuming
                              [OfFetcher; OfFetcher; OfFetcher; OfFetcher]
                              {| proc := loaded_consuming;
                                 fetcher := AtPop |})))
            = ["a"; "b"]) by (vm_compute; reflexivity).
    rewrite Htk in *.
    assert (rd = ["c"]) as ->.
    { vm_compute in Hrd. by injection Hrd as <-. }
    exists st'. split; [done|]. split; [exact Hrun|].
    rewrite Hrd'. simpl. by rewrite Hord.
Defined.

(** ** The loop of the fetcher *)

Lemma turn_not_Returned queue t sys :
  fetcher sys ≠ Returned → fetcher (turn queue t sys) ≠ Returned.
Proof.
  intros Hf. destruct sys as [st f]. destruct t as [|c|p]; simpl in *.
  - unfold fetcher_turn. simpl.
    destruct f as [|d|]; [| |done].
    + unfold consume, mbind, M_bind.
      destruct (Client.BRPopLPush _ _ st) as [[res| |] st1]; try done.
      by destruct (Err res).
    + unfold consume, mbind, M_bind.
      by destruct (chan_send _ d st) as [[[]| |] st1].
  - unfold addConsumer. simpl.
    destruct (deliveryChan queue); [|done].
    destruct (chans st !! _) as [ch|]; [|done].
    destruct (buffered ch); [|done].
    by destruct f.
  - done.
Qed.

Lemma run_not_Returned queue turns :
  ∀ sys, fetcher sys ≠ Returned → fetcher (run queue turns sys) ≠ Returned.
Proof.
  induction turns as [|t turns IH]; intros sys Hf; [done|].
  rewrite run_cons. apply IH. by apply turn_not_Returned.
Qed.

Lemma fetcher_logs_and_retries queue st res st1 e :
  Client.BRPopLPush (readyKey queue) (unackedKey queue) st = (Done res, st1) →
  Err res = Some e →
  fetcher_turn queue {| proc := st; fetcher := AtPop |}
  = {| proc := snd (log_Printf (FailedConsume (String queue) e) st1);
       fetcher := AtPop |}.
Proof.
  intros Hrun He. unfold fetcher_turn, consume. simpl.
  unfold mbind, M_bind. by rewrite Hrun, He.
Qed.

(** C5: the goroutine of [consume] never leaves its loop, whatever the
    server and the other goroutines do; the source has no statement that
    stops it.  A pop-push that comes back with an error is logged and the
    goroutine is at the pop-push again; and after any number of calls that
    did not reach the server, the next turn on a quiet server takes the
    oldest ready payload. *)
Theorem consume_never_returns queue :
  (∀ turns sys,
     fetcher sys ≠ Returned → fetcher (run queue turns sys) ≠ Returned)
  ∧ (∀ st res st1 e,
       Client.BRPopLPush (readyKey queue) (unackedKey queue) st
       = (Done res, st1) →
       Err res = Some e →
       fetcher_turn queue {| proc := st; fetcher := AtPop |}
       = {| proc := snd (log_Printf (FailedConsume (String queue) e) st1);
            fetcher := AtPop |})
  ∧ (∀ faults st es l x ua,
       readyKey queue ≠ unackedKey queue →
       env st = faults ++ es →
       Forall (fun e => others e = [] ∧ fault e = true) faults →
       calm 1 es →
       Redis.list_at (readyKey queue) (store st) = Some (l ++ [x]) →
       Redis.list_at (unackedKey queue) (store st) = Some ua →
       ∃ st',
         run queue (replicate (S (length faults)) OfFetcher)
           {| proc := st; fetcher := AtPop |}
         = {| proc := st';
              fetcher := AtSend (newDelivery x (unackedKey queue)) |}
         ∧ logged st'
           = logged st
             ++ replicate (length faults)
                  (FailedConsume (String queue) Redis.ConnError)
         ∧ Redis.list_at (readyKey queue) (store st') = Some l
         ∧ Redis.list_at (unackedKey queue) (store st') = Some (x :: ua)).
Proof.
  split; [|split].
  - apply run_not_Returned.
  - apply fetcher_logs_and_retries.
  - induction faults as [|e faults IH];
      intros st es l x ua Hne Henv Hfaults Hcalm Hrd Hua.
    + simpl in Henv. rewrite <- Henv in Hcalm.
      destruct (calm_next _ _ Hcalm) as (Harr & Hf & _).
      destruct (fetcher_pops_right queue st l x ua Hne Hf)
        as (s' & Hrun & H1 & H2 & _); [by rewrite Harr..|].
      eexists. simpl. rewrite Hrun. split; [reflexivity|]. simpl.
      by rewrite app_nil_r.
    + apply Forall_cons in Hfaults as [[Hoth Hfault] Hfaults].
      assert (Hf : failing st = true)
        by (unfold failing; by rewrite Henv).
      assert (Harr : arriving st = store st).
      { unfold arriving. rewrite Henv. simpl. by rewrite Hoth. }
      change (length (e :: faults)) with (S (length faults)).
      rewrite replicate_S, run_cons.
      cbn [turn].
      rewrite (fetcher_logs_and_retries queue st _ _ Redis.ConnError
                 (BRPopLPush_failing _ _ st Hf) eq_refl).
      destruct (IH (snd (log_Printf (FailedConsume (String queue)
                                       Redis.ConnError)
                           (served st (arriving st) (tail (env st))
                              [(Redis.BRPopLPush (readyKey queue)
                                  (unackedKey queue),
                                Redis.RErr Redis.ConnError)])))
                  es l x ua Hne)
        as (st' & Hrun & Hlog & H1 & H2);
        [by simpl; rewrite Henv|done|done|by simpl; rewrite Harr..|].
      exists st'. split; [exact Hrun|]. split; [|done].
      rewrite Hlog. simpl. by rewrite <- app_assoc.
Qed.

Lemma consume_never_returns_witness :
  fetcher (run things [OfFetcher; OfWorker (Handler 0); OfFetcher]
             {| proc := loaded_cut; fetcher := AtPop |}) ≠ Returned
  ∧ fetcher_turn things {| proc := loaded_cut; fetcher := AtPop |}
    = {| proc :=
           snd (log_Printf (FailedConsume (String things) Redis.ConnError)
                  (snd (Client.BRPopLPush (readyKey things)
                          (unackedKey things) loaded_cut)));
         fetcher := AtPop |}
  ∧ fetcher (run things [OfFetcher; OfFetcher; OfFetcher]
               {| proc := loaded_cut; fetcher := AtPop |})
    = AtSend (newDelivery "a" (unackedKey things))
  ∧ logged (proc (run things [OfFetcher; OfFetcher; OfFetcher]
                    {| proc := loaded_cut; fetcher := AtPop |}))
    = [FailedConsume "[things conn:conn-abc]" Redis.ConnError;
       FailedConsume "[things conn:conn-abc]" Redis.ConnError].
Proof.
  destruct (consume_never_returns things) as (H1 & H2 & H3).
  split; [apply H1; discriminate|].
  split.
  { apply (H2 loaded_cut {| Err := Some Redis.ConnError; Val := "" |});
      [vm_compute|]; reflexivity. }
  destruct (H3 [ {| others := []; fault := true |};
                 {| others := []; fault := true |} ]
               loaded_cut [] ["c"; "b"] "a" [])
    as (st' & Hrun & Hlog & _).
  - vm_compute. discriminate.
  - reflexivity.
  - repeat constructor.
  - apply calm_nil.
  - reflexivity.
  - reflexivity.
  - change (replicate _ OfFetcher) with [OfFetcher; OfFetcher; OfFetcher]
      in Hrun.
    rewrite Hrun. simpl. split; [reflexivity|]. by rewrite Hlog.
Defined.

(** ** Draining the queue *)

Lemma worker_receives queue consumer st f a ch d rest :
  deliveryChan queue = Some a →
  chans st !! a = Some ch →
  buffered ch = d :: rest →
  addConsumer queue consumer {| proc := st; fetcher := f |}
  = {| proc := Consume consumer d
                 (set_chans (<[a := {| capacity := capacity ch;
                                       buffered := rest |}]> (chans st)) st);
       fetcher := f |}.
Proof.
  intros Hch Hc Hb. unfold addConsumer. simpl. by rewrite Hch, Hc, Hb.
Qed.

Lemma worker_takes_over queue consumer st a ch d :
  deliveryChan queue = Some a →
  chans st !! a = Some ch →
  buffered ch = [] →
  addConsumer queue consumer {| proc := st; fetcher := AtSend d |}
  = {| proc := Consume consumer d st; fetcher := AtPop |}.
Proof.
  intros Hch Hc Hb. unfold addConsumer. simpl. by rewrite Hch, Hc, Hb.
Qed.

Lemma worker_idles queue consumer st a ch :
  deliveryChan queue = Some a →
  chans st !! a = Some ch →
  buffered ch = [] →
  addConsumer queue consumer {| proc := st; fetcher := AtPop |}
  = {| proc := st; fetcher := AtPop |}.
Proof.
  intros Hch Hc Hb. unfold addConsumer. simpl. by rewrite Hch, Hc, Hb.
Qed.

Lemma chan_kept (cs : list Chan) a c :
  is_Some (cs !! a) → is_Some (<[a := c]> cs !! a).
Proof.
  rewrite !lookup_lt_is_Some. by rewrite length_insert.
Qed.

(** Turns of the worker empty the channel and the fetcher's hand. *)
Lemma workers_poised queue consumer a rd n :
  deliveryChan queue = Some a →
  ∀ sys,
    env (proc sys) = [] →
    is_Some (chans (proc sys) !! a) →
    fetcher sys ≠ Returned →
    length (in_channel queue (proc sys)) = n →
    Redis.list_at (readyKey queue) (store (proc sys)) = Some rd →
    is_Some (Redis.list_at (unackedKey queue) (store (proc sys))) →
    poised queue rd (run queue (replicate (S n) (OfWorker consumer)) sys).
Proof.
  intros Hch. induction n as [|n IH];
    intros [st f] He [ch Hc] Hf Hlen Hrd Hua; simpl in He, Hc, Hf, Hrd, Hua.
  - assert (Hb : buffered ch = []).
    { apply nil_length_inv. revert Hlen. unfold in_channel. simpl.
      by rewrite Hch, Hc. }
    assert (Hin : in_channel queue st = [])
      by (unfold in_channel; by rewrite Hch, Hc).
    simpl. destruct f as [|d|]; [| |done].
    + rewrite (worker_idles _ _ _ _ _ Hch Hc Hb).
      repeat split; try done. exists a. eauto.
    + rewrite (worker_takes_over _ _ _ _ _ _ Hch Hc Hb).
      repeat split; try done. exists a. simpl. eauto.
  - simpl in Hlen. unfold in_channel in Hlen. simpl in Hlen.
    rewrite Hch, Hc in Hlen.
    destruct (buffered ch) as [|d rest] eqn:Hb; [done|].
    rewrite replicate_S, run_cons. cbn [turn].
    rewrite (worker_receives _ _ _ _ _ _ _ _ Hch Hc Hb).
    apply IH; cbn [proc fetcher]; try done.
    + simpl. apply chan_kept. eauto.
    + rewrite in_channel_Consume, (in_channel_received _ _ _ _ _ Hch Hc).
      simpl in Hlen. lia.
Qed.

(** One round takes the oldest ready payload and hands it over. *)
Lemma round_poised queue consumer l x sys :
  readyKey queue ≠ unackedKey queue →
  poised queue (l ++ [x]) sys →
  poised queue l (run queue (round consumer) sys).
Proof.
  intros Hne (He & (a & Hch & [ch Hc]) & Hin & Hf & Hrd & [ua Hua]).
  destruct sys as [st f]. simpl in *. subst f.
  destruct (quiet_server st He) as [Hfl Harr].
  destruct (fetcher_pops_right queue st l x ua Hne Hfl)
    as (s' & -> & H1 & H2 & _); [by rewrite Harr..|].
  assert (Hb : buffered ch = []).
  { revert Hin. unfold in_channel. by rewrite Hch, Hc. }
  set (st1 := served st s' (tail (env st)) _).
  assert (Hc1 : chans st1 !! a = Some ch) by done.
  assert (He1 : env st1 = []) by (by simpl; rewrite He).
  unfold fetcher_turn, consume, chan_send, mbind, M_bind, mret, M_ret.
  cbn [proc fetcher]. rewrite Hch, Hc1, Hb.
  destruct (decide _) as [Hroom|Hfull]; cbn [proc fetcher].
  - set (st2 := set_chans _ st1).
    assert (Hc2 : chans st2 !! a
                  = Some {| capacity := capacity ch;
                            buffered := [newDelivery x (unackedKey queue)] |}).
    { unfold st2. simpl. rewrite list_lookup_insert_eq; [done|].
      by eapply lookup_lt_Some. }
    rewrite (worker_receives _ _ st2 _ _ _ _ _ Hch Hc2 eq_refl).
    unfold poised. cbn [proc fetcher].
    split; [done|]. split.
    { exists a. split; [done|]. simpl. do 2 apply chan_kept. eauto. }
    split.
    { rewrite in_channel_Consume. cbn [capacity].
      by rewrite (in_channel_received _ _ _ _ _ Hch Hc2). }
    split; [done|]. split; [done|]. simpl. eauto.
  - rewrite (worker_takes_over _ _ st1 _ _ _ Hch Hc1 Hb).
    unfold poised. cbn [proc fetcher].
    split; [done|]. split.
    { exists a. split; [done|]. simpl. eauto. }
    split.
    { rewrite in_channel_Consume. unfold in_channel. by rewrite Hch, Hc1. }
    split; [done|]. split; [done|]. simpl. eauto.
Qed.

Lemma rounds_poised queue consumer rd :
  readyKey queue ≠ unackedKey queue →
  ∀ sys,
    poised queue rd sys →
    poised queue [] (run queue (rounds consumer (length rd)) sys).
Proof.
  intros Hne. induction rd as [|x l IH] using rev_ind; intros sys Hp; [done|].
  rewrite length_app, Nat.add_1_r. unfold rounds.
  rewrite replicate_S. simpl concat.
  change (OfFetcher :: OfFetcher :: OfWorker consumer :: ?t)
    with (round consumer ++ t).
  rewrite run_app. apply IH. by apply (round_poised _ _ l x).
Qed.

Lemma turn_chans_length queue t sys :
  length (chans (proc (turn queue t sys))) = length (chans (proc sys)).
Proof.
  destruct sys as [st f]. destruct t as [|c|p]; simpl.
  - unfold fetcher_turn. simpl. destruct f as [|d|]; [| |done].
    + unfold consume, Client.BRPopLPush, mbind, M_bind, call_waiting,
        mret, M_ret.
      destruct (await _ _ _ _) as [[[r|] s] es]; [|done].
      by destruct (Err (StringCmd r)).
    + unfold consume, chan_send, mbind, M_bind, mret, M_ret.
      destruct (deliveryChan queue); [|done].
      destruct (chans st !! _) as [ch|]; [|done].
      destruct (decide _); [|done].
      simpl. by rewrite length_insert.
  - unfold addConsumer. simpl.
    destruct (deliveryChan queue); [|done].
    destruct (chans st !! _) as [ch|]; [|done].
    destruct (buffered ch).
    + by destruct f.
    + simpl. by rewrite length_insert.
  - unfold Publish, Client.LPush, mbind, M_bind.
    by rewrite call_served.
Qed.

Lemma run_chan_kept queue a turns :
  ∀ sys,
    is_Some (chans (proc sys) !! a) →
    is_Some (chans (proc (run queue turns sys)) !! a).
Proof.
  induction turns as [|t turns IH]; intros sys Hc; [done|].
  rewrite run_cons. apply IH. revert Hc.
  rewrite !lookup_lt_is_Some. by rewrite turn_chans_length.
Qed.

Lemma turn_consumed queue t sys :
  consumed (proc (turn queue t sys)) = consumed (proc sys)
  ∨ ∃ c d, t = OfWorker c
           ∧ consumed (proc (turn queue t sys))
             = consumed (proc sys) ++ [(c, d)].
Proof.
  destruct sys as [st f]. destruct t as [|c|p]; simpl.
  - left. unfold fetcher_turn. simpl. destruct f as [|d|]; [| |done].
    + unfold consume, Client.BRPopLPush, mbind, M_bind, call_waiting,
        mret, M_ret.
      destruct (await _ _ _ _) as [[[r|] s] es]; [|done].
      by destruct (Err (StringCmd r)).
    + unfold consume, chan_send, mbind, M_bind, mret, M_ret.
      destruct (deliveryChan queue); [|done].
      destruct (chans st !! _) as [ch|]; [|done].
      by destruct (decide _).
  - unfold addConsumer. simpl.
    destruct (deliveryChan queue); [|by left].
    destruct (chans st !! _) as [ch|]; [|by left].
    destruct (buffered ch) as [|d rest].
    + destruct f as [|d|]; [by left| |by left].
      right. by exists c, d.
    + right. by exists c, d.
  - left. unfold Publish, Client.LPush, mbind, M_bind.
    by rewrite call_served.
Qed.

Lemma run_single_consumer queue consumer turns :
  (∀ c, OfWorker c ∈ turns → c = consumer) →
  ∀ sys,
    Forall (fun cd => cd.1 = consumer) (consumed (proc sys)) →
    Forall (fun cd => cd.1 = consumer) (consumed (proc (run queue turns sys))).
Proof.
  induction turns as [|t turns IH]; intros Hone sys Hall; [done|].
  rewrite run_cons. apply IH.
  - intros c Hc. apply Hone. by right.
  - destruct (turn_consumed queue t sys) as [->|(c & d & -> & ->)]; [done|].
    apply Forall_app. split; [done|].
    constructor; [|done]. simpl. apply Hone. by left.
Qed.

Lemma published_workers consumer n :
  published (replicate n (OfWorker consumer)) = [].
Proof. induction n as [|n IH]; [done|]. simpl. exact IH. Qed.

Lemma published_rounds consumer n : published (rounds consumer n) = [].
Proof. induction n as [|n IH]; [done|]. exact IH. Qed.

Lemma published_drain queue consumer sys :
  published (drain queue consumer sys) = [].
Proof.
  unfold drain, published. rewrite omap_app.
  fold (published (replicate (S (length (in_channel queue (proc sys))))
                     (OfWorker consumer))).
  rewrite published_workers. apply published_rounds.
Qed.

(** Once the turns of [drain] are done, everything that was in the order
    has been handed over. *)
Lemma drain_hands_all queue consumer a before order sys :
  readyKey queue ≠ unackedKey queue →
  deliveryChan queue = Some a →
  is_Some (chans (proc sys) !! a) →
  fetcher sys ≠ Returned →
  settled queue before order sys →
  handled (proc (run queue (drain queue consumer sys) sys)) = order.
Proof.
  intros Hne Hch Hc Hf Hs.
  pose proof (run_settled queue before (drain queue consumer sys) Hne _ _ Hs)
    as Hs'.
  rewrite published_drain, app_nil_r in Hs'.
  destruct Hs as (He & rd & Hrd & Hua & _).
  assert (Hp : poised queue []
                 (run queue (drain queue consumer sys) sys)).
  { unfold drain. rewrite Hrd, run_app. simpl default.
    apply rounds_poised; [done|].
    by apply (workers_poised queue consumer a rd). }
  destruct Hs' as (_ & rd' & Hrd' & _ & Htk & Hord).
  destruct Hp as (_ & _ & Hin & Hfp & Hrdp & _).
  rewrite Hrdp in Hrd'. injection Hrd' as <-.
  rewrite <- Hord, Htk. unfold pipeline. rewrite Hin, Hfp. simpl.
  by rewrite !app_nil_r.
Qed.

(** C3: let a prepared process that has taken and handed over nothing yet
    run alone on a server that does not fail, its fetcher, its publishers
    and the worker of its one consumer taking turns in any order.  At any
    moment a publish puts its payload on the left of the ready list; a pop of
    the fetcher takes the rightmost payload of the ready list and puts it on
    the left of the unacked list; the payloads handed to the consumer so far
    are the first ones of what was ready at the start, oldest first, followed
    by the published payloads in the order of their publishing; and once the
    worker and the fetcher have had the turns of [drain], all of them have
    been handed over, in that order. *)
Theorem fifo_single_consumer queue consumer a ch st rd0 before turns :
  readyKey queue ≠ unackedKey queue →
  deliveryChan queue = Some a →
  chans st !! a = Some ch →
  buffered ch = [] →
  env st = [] →
  Redis.list_at (readyKey queue) (store st) = Some rd0 →
  Redis.list_at (unackedKey queue) (store st) = Some before →
  taken queue (calls st) = [] →
  consumed st = [] →
  (∀ c, OfWorker c ∈ turns → c = consumer) →
  let sys := run queue turns {| proc := st; fetcher := AtPop |} in
  (∀ p rd,
     Redis.list_at (readyKey queue) (store (proc sys)) = Some rd →
     Redis.list_at (readyKey queue)
       (store (proc (turn queue (OfPublisher p) sys)))
     = Some (p :: rd))
  ∧ (∀ l x ua,
       fetcher sys = AtPop →
       Redis.list_at (readyKey queue) (store (proc sys)) = Some (l ++ [x]) →
       Redis.list_at (unackedKey queue) (store (proc sys)) = Some ua →
       fetcher (turn queue OfFetcher sys)
       = AtSend (newDelivery x (unackedKey queue))
       ∧ Redis.list_at (readyKey queue)
           (store (proc (turn queue OfFetcher sys))) = Some l
       ∧ Redis.list_at (unackedKey queue)
           (store (proc (turn queue OfFetcher sys))) = Some (x :: ua))
  ∧ (∃ waiting,
       handled (proc sys) ++ waiting = pop_order rd0 ++ published turns)
  ∧ Forall (fun cd => cd.1 = consumer) (consumed (proc sys))
  ∧ handled (proc (run queue (drain queue consumer sys) sys))
    = pop_order rd0 ++ published turns.
Proof.
  intros Hne Hch Hc Hb He Hrd Hua Htk Hco Hone sys.
  assert (Hin : in_channel queue st = [])
    by (unfold in_channel; by rewrite Hch, Hc).
  pose proof (run_settled queue before turns Hne _ _
                (settled_start queue st rd0 before He Hrd Hua Htk Hco Hin))
    as Hs.
  fold sys in Hs.
  assert (Hex : is_Some (chans (proc sys) !! a))
    by (apply run_chan_kept; simpl; eauto).
  assert (Hnr : fetcher sys ≠ Returned)
    by (by apply run_not_Returned).
  assert (Hall : Forall (fun cd => cd.1 = consumer) (consumed (proc sys))).
  { apply run_single_consumer; [done|]. simpl. rewrite Hco. constructor. }
  split; [|split; [|split; [|split; [done|]]]].
  - intros p rd Hrd'. destruct Hs as (He' & _).
    destruct (quiet_server _ He') as [Hf Harr]. simpl.
    rewrite (Publish_pushes_left queue p _ rd Hf) by (by rewrite Harr).
    simpl. apply list_at_insert.
  - intros l x ua Hat Hrd' Hua'. destruct Hs as (He' & _).
    destruct (quiet_server _ He') as [Hf Harr].
    destruct sys as [st' f']. simpl in Hat, Hrd', Hua', Hf, Harr. subst f'.
    destruct (fetcher_pops_right queue st' l x ua Hne Hf)
      as (s' & Hrun & H1 & H2 & _); [by rewrite Harr..|].
    simpl. by rewrite Hrun.
  - destruct Hs as (_ & rd & _ & _ & Htk' & Hord).
    exists (pipeline queue sys ++ pop_order rd).
    by rewrite app_assoc, <- Htk'.
  - by apply (drain_hands_all queue consumer a before).
Qed.

Lemma fifo_single_consumer_witness :
  let sys := run things_consuming busy
               {| proc := idle_consuming; fetcher := AtPop |} in
  handled (proc sys) = ["a"]
  ∧ Redis.list_at (readyKey things_consuming)
      (store (proc (turn things_consuming (OfPublisher "e") sys)))
    = Some ["e"; "d"; "c"]
  ∧ fetcher (turn things_consuming OfFetcher sys)
    = AtSend (newDelivery "c" (unackedKey things_consuming))
  ∧ (∃ waiting, ["a"] ++ waiting = ["a"; "b"; "c"; "d"])
  ∧ handled
      (proc (run things_consuming
               (busy ++ drain things_consuming (Handler 0) sys)
               {| proc := idle_consuming; fetcher := AtPop |}))
    = ["a"; "b"; "c"; "d"].
Proof.
  intros sys.
  assert (Hh : handled (proc sys) = ["a"]) by (vm_compute; reflexivity).
  destruct (fifo_single_consumer things_consuming (Handler 0) 0%nat
              {| capacity := 1; buffered := [] |}
              idle_consuming [] [] busy)
    as (Hpub & Hpop & Hpre & _ & Hall).
  - vm_compute. discriminate.
  - reflexivity.
  - reflexivity.
  - reflexivity.
  - reflexivity.
  - reflexivity.
  - reflexivity.
  - reflexivity.
  - reflexivity.
  - intros c Hc. unfold busy in Hc.
    repeat (apply elem_of_cons in Hc as [Hc|Hc];
            [inversion Hc; reflexivity|]).
    apply elem_of_nil in Hc. destruct Hc.
  - fold sys in Hpub, Hpop, Hpre, Hall. rewrite Hh in Hpre.
    split; [exact Hh|]. split.
    { apply Hpub. vm_compute. reflexivity. }
    split.
    { apply (Hpop ["d"] "c" ["b"; "a"]); vm_compute; reflexivity. }
    split; [exact Hpre|].
    rewrite run_app. exact Hall.
Defined.

(** ** The keys of a queue *)

Lemma substring_whole s : String.substring 0 (String.length s) s = s.
Proof. induction s as [|c s IH]; simpl; [done|by rewrite IH]. Qed.

Lemma prefix_split old :
  ∀ s, String.prefix old s = true →
       s = old +:+ String.substring (String.length old)
                     (String.length s - String.length old) s.
Proof.
  induction old as [|a old IH]; intros s Hp; simpl.
  - by rewrite Nat.sub_0_r, substring_whole.
  - destruct s as [|b s]; simpl in *; [done|].
    destruct (Ascii.ascii_dec a b) as [->|]; [|done].
    change (String.String b old +:+ ?t) with (String.String b (old +:+ t)).
    f_equal. by apply IH.
Qed.

(** [strings.Replace] leaves the string as it is or replaces one
    occurrence. *)
Lemma replace_first_cases s old new :
  replace_first s old new = s
  ∨ ∃ pre post, s = pre +:+ old +:+ post
                ∧ replace_first s old new = pre +:+ new +:+ post.
Proof.
  induction s as [|c s IH].
  - destruct old as [|a old]; [|by left].
    right. exists "", "". split; reflexivity.
  - cbn [replace_first].
    destruct (String.prefix old (String.String c s)) eqn:Hp.
    + right. exists "". eexists. split; [|reflexivity].
      by apply prefix_split.
    + destruct IH as [->|(pre & post & Hs & ->)]; [by left|].
      right. exists (String.String c pre), post. by rewrite Hs.
Qed.

Lemma last_char_app s t :
  last_char (s +:+ t)
  = match t with EmptyString => last_char s | _ => last_char t end.
Proof.
  induction s as [|c s IH]; simpl.
  - by destruct t.
  - rewrite IH. destruct s; simpl; by destruct t.
Qed.

Lemma last_char_app_r s t : t ≠ "" → last_char (s +:+ t) = last_char t.
Proof. intros Ht. rewrite last_char_app. by destruct t. Qed.

Lemma append_not_empty s t : t ≠ "" → s +:+ t ≠ "".
Proof. destruct s; [done|]. intros _ H. discriminate H. Qed.

Lemma replace_first_last s old new c :
  old ≠ "" →
  last_char old ≠ Some c →
  last_char s = Some c →
  last_char (replace_first s old new) = Some c.
Proof.
  intros Hold Hne Hs.
  destruct (replace_first_cases s old new)
    as [->|(pre & post & -> & ->)]; [done|].
  destruct post as [|p post].
  - destruct Hne. rewrite <- Hs.
    rewrite (last_char_app_r pre) by (by destruct old).
    by rewrite last_char_app.
  - rewrite <- Hs.
    rewrite !(last_char_app_r pre) by (by apply append_not_empty).
    by rewrite !last_char_app_r.
Qed.

(** X4: the three keys [newQueue] derives are different keys, whatever
    the names are. *)
Lemma newQueue_keys_distinct name connectionName queuesKey :
  let queue := newQueue name connectionName queuesKey in
  unackedKey queue ≠ readyKey queue
  ∧ consumersKey queue ≠ readyKey queue
  ∧ consumersKey queue ≠ unackedKey queue.
Proof.
  assert (Hr : last_char (readyKey (newQueue name connectionName queuesKey))
               = Some "y"%char)
    by (by apply replace_first_last).
  assert (Hu : last_char (unackedKey (newQueue name connectionName queuesKey))
               = Some "d"%char)
    by (by do 2 (apply replace_first_last; [done..|])).
  assert (Hc : last_char (consumersKey (newQueue name connectionName
                                          queuesKey))
               = Some "s"%char)
    by (by do 2 (apply replace_first_last; [done..|])).
  cbv zeta. repeat split; intros H; rewrite H in *; congruence.
Qed.

(** ** More on the keys *)

Lemma append_cons a s t :
  String.String a s +:+ t = String.String a (s +:+ t).
Proof. reflexivity. Qed.

Lemma append_assoc s t u : (s +:+ t) +:+ u = s +:+ t +:+ u.
Proof.
  induction s as [|a s IH]; [done|].
  by rewrite !append_cons, IH.
Qed.

Lemma length_append s t :
  String.length (s +:+ t) = (String.length s + String.length t)%nat.
Proof.
  induction s as [|a s IH]; [done|].
  rewrite append_cons. simpl. by rewrite IH.
Qed.

Lemma append_inj_r s x y : x +:+ s = y +:+ s → x = y.
Proof.
  revert y. induction x as [|a x IH]; intros [|b y] H.
  - done.
  - apply (f_equal String.length) in H.
    rewrite !length_append in H. simpl in H. lia.
  - apply (f_equal String.length) in H.
    rewrite !length_append in H. simpl in H. lia.
  - rewrite !append_cons in H. injection H as -> H.
    f_equal. by apply IH.
Qed.

Lemma replace_first_unfold s old new :
  replace_first s old new
  = if String.prefix old s
    then new +:+ String.substring (String.length old)
                   (String.length s - String.length old) s
    else match s with
         | EmptyString => EmptyString
         | String.String c s' => String.String c (replace_first s' old new)
         end.
Proof. by destruct s. Qed.

Lemma prefix_append old b : String.prefix old (old +:+ b) = true.
Proof.
  induction old as [|a old IH]; [by destruct b|].
  rewrite append_cons. simpl.
  by destruct (Ascii.ascii_dec a a).
Qed.

Lemma substring_append old b :
  String.substring (String.length old)
    (String.length (old +:+ b) - String.length old) (old +:+ b) = b.
Proof.
  induction old as [|a old IH].
  - change ("" +:+ b) with b. simpl.
    by rewrite Nat.sub_0_r, substring_whole.
  - rewrite append_cons. simpl. exact IH.
Qed.

(** An occurrence at the very start is the one replaced. *)
Lemma replace_first_here old new b :
  replace_first (old +:+ b) old new = new +:+ b.
Proof.
  by rewrite replace_first_unfold, prefix_append, substring_append.
Qed.

(** No occurrence starts in a stretch that lacks the first character. *)
Lemma replace_first_skip c0 old' a rest new :
  has_char c0 a = false →
  replace_first (a +:+ rest) (String.String c0 old') new
  = a +:+ replace_first rest (String.String c0 old') new.
Proof.
  induction a as [|c a IH]; intros Hc; [done|].
  simpl in Hc. destruct (Ascii.ascii_dec c0 c) as [|Hne]; [done|].
  rewrite !append_cons, replace_first_unfold. simpl.
  destruct (Ascii.ascii_dec c0 c); [done|].
  by rewrite IH.
Qed.

(** X1: two queues have the same ready key exactly when they have the same
    name: the connection plays no part in it, so queues of one name share
    their ready list across connections, and queues of different names
    never do. *)
Theorem readyKey_by_name name1 conn1 qk1 name2 conn2 qk2 :
  readyKey (newQueue name1 conn1 qk1) = readyKey (newQueue name2 conn2 qk2)
  ↔ name1 = name2.
Proof.
  assert (Hshape : ∀ n c k,
            readyKey (newQueue n c k) = "rmq::queue::" +:+ n +:+ "::ready")
    by reflexivity.
  rewrite !Hshape. split; [|by intros ->].
  intros H. apply (inj (String.append "rmq::queue::")) in H.
  by apply append_inj_r in H.
Qed.

(** X2: for a connection name without an opening brace, the unacked key
    and the consumers key are the templates with the connection name and the
    queue name in their places. *)
Theorem newQueue_keys name conn qk :
  has_char "{" conn = false →
  unackedKey (newQueue name conn qk)
  = "rmq::connection::" +:+ conn +:+ "::queue::" +:+ name +:+ "::unacked"
  ∧ consumersKey (newQueue name conn qk)
    = "rmq::connection::" +:+ conn +:+ "::queue::" +:+ name
      +:+ "::consumers".
Proof.
  intros Hc. unfold newQueue, unackedKey, consumersKey.
  split.
  - change (replace_first Keys.connectionQueueUnackedTemplate
              Keys.phConnection conn)
      with ("rmq::connection::"
            +:+ conn +:+ "::queue::" +:+ "{queue}" +:+ "::unacked").
    unfold Keys.phQueue.
    rewrite (replace_first_skip _ _ "rmq::connection::") by reflexivity.
    rewrite (replace_first_skip _ _ conn) by exact Hc.
    rewrite (replace_first_skip _ _ "::queue::") by reflexivity.
    by rewrite (replace_first_here "{queue}").
  - change (replace_first Keys.connectionQueueConsumersTemplate
              Keys.phConnection conn)
      with ("rmq::connection::"
            +:+ conn +:+ "::queue::" +:+ "{queue}" +:+ "::consumers").
    unfold Keys.phQueue.
    rewrite (replace_first_skip _ _ "rmq::connection::") by reflexivity.
    rewrite (replace_first_skip _ _ conn) by exact Hc.
    rewrite (replace_first_skip _ _ "::queue::") by reflexivity.
    by rewrite (replace_first_here "{queue}").
Qed.

Lemma newQueue_keys_witness :
  unackedKey (newQueue "things" "conn-abc" "")
  = "rmq::connection::conn-abc::queue::things::unacked".
Proof.
  destruct (newQueue_keys "things" "conn-abc" "") as [H _];
    [reflexivity|].
  rewrite H. reflexivity.
Defined.

(** X3: when the connection name holds the placeholder of the queue name,
    with no opening brace before it, the queue name is put there, inside the
    connection's part of the key, and the placeholder of the template stays
    in the unacked key. *)
Theorem newQueue_placeholder_in_connection name before after qk :
  has_char "{" before = false →
  unackedKey (newQueue name (before +:+ "{queue}" +:+ after) qk)
  = "rmq::connection::" +:+ before +:+ name +:+ after
    +:+ "::queue::{queue}::unacked".
Proof.
  intros Hc. unfold newQueue, unackedKey.
  change (replace_first Keys.connectionQueueUnackedTemplate
            Keys.phConnection (before +:+ "{queue}" +:+ after))
    with ("rmq::connection::"
          +:+ (before +:+ "{queue}" +:+ after)
          +:+ "::queue::{queue}::unacked").
  unfold Keys.phQueue. rewrite !append_assoc.
  rewrite (replace_first_skip _ _ "rmq::connection::") by reflexivity.
  rewrite (replace_first_skip _ _ before) by exact Hc.
  by rewrite (replace_first_here "{queue}").
Qed.

Lemma newQueue_placeholder_in_connection_witness :
  unackedKey (newQueue "things" "c-{queue}-1" "")
  = "rmq::connection::c-things-1::queue::{queue}::unacked".
Proof.
  exact (newQueue_placeholder_in_connection "things" "c-" "-1" "" eq_refl).
Defined.

Lemma readyKey_by_name_witness :
  readyKey (newQueue "jobs" "conn-1" "") = readyKey (newQueue "jobs" "conn-2" "")
  ∧ readyKey (newQueue "jobs" "conn-1" "") ≠ readyKey (newQueue "mail" "conn-1" "").
Proof.
  split.
  - by apply readyKey_by_name.
  - intros H. apply readyKey_by_name in H. discriminate H.
Defined.

(** ** Counting and publishing *)

Lemma ReadyCount_list queue st l :
  failing st = false →
  Redis.list_at (readyKey queue) (arriving st) = Some l →
  ReadyCount queue st
  = (Done (Z.of_nat (length l)),
     served st (arriving st) (tail (env st))
       [(Redis.LLen (readyKey queue), Redis.RInt (Z.of_nat (length l)))]).
Proof.
  intros Hf Hl. unfold ReadyCount, mbind, M_bind.
  by rewrite (LLen_list _ st l Hf Hl).
Qed.

Lemma UnackedCount_list queue st l :
  failing st = false →
  Redis.list_at (unackedKey queue) (arriving st) = Some l →
  UnackedCount queue st
  = (Done (Z.of_nat (length l)),
     served st (arriving st) (tail (env st))
       [(Redis.LLen (unackedKey queue), Redis.RInt (Z.of_nat (length l)))]).
Proof.
  intros Hf Hl. unfold UnackedCount, mbind, M_bind.
  by rewrite (LLen_list _ st l Hf Hl).
Qed.

Lemma LLen_fails key st e :
  (failing st = true ∧ e = Redis.ConnError
   ∨ failing st = false ∧ Redis.list_at key (arriving st) = None
     ∧ e = Redis.WrongType) →
  Client.LLen key st
  = (Done {| Err := Some e; Val := 0 |},
     served st (arriving st) (tail (env st))
       [(Redis.LLen key, Redis.RErr e)]).
Proof.
  unfold Client.LLen, mbind, M_bind. rewrite call_served.
  intros [[-> ->]|(-> & Hl & ->)]; [done|].
  cbv zeta. unfold Redis.list_at in Hl. simpl.
  by destruct (arriving st !! key) as [[?|?]|].
Qed.

(** X5: [ReadyCount] and [UnackedCount] only read: the store is left as
    the call found it, the answer is the length of the list, and it is 0,
    with one line logged, when the call fails or the key holds a set; the
    answer is never negative. *)
Theorem counts_only_read queue st :
  (∃ n st', ReadyCount queue st = (Done n, st')
     ∧ store st' = arriving st ∧ 0 ≤ n
     ∧ (if failing st
        then n = 0
             ∧ logged st' = logged st
                 ++ [FailedReadyCount (String queue) Redis.ConnError]
        else match Redis.list_at (readyKey queue) (arriving st) with
             | Some l => n = Z.of_nat (length l) ∧ logged st' = logged st
             | None =>
                 n = 0
                 ∧ logged st' = logged st
                     ++ [FailedReadyCount (String queue) Redis.WrongType]
             end))
  ∧ (∃ n st', UnackedCount queue st = (Done n, st')
       ∧ store st' = arriving st ∧ 0 ≤ n
       ∧ (if failing st
          then n = 0
               ∧ logged st' = logged st
                   ++ [FailedUnackedCount (String queue) Redis.ConnError]
          else match Redis.list_at (unackedKey queue) (arriving st) with
               | Some l => n = Z.of_nat (length l) ∧ logged st' = logged st
               | None =>
                   n = 0
                   ∧ logged st' = logged st
                       ++ [FailedUnackedCount (String queue) Redis.WrongType]
               end)).
Proof.
  split.
  - destruct (failing st) eqn:Hf.
    + unfold ReadyCount, mbind, M_bind.
      rewrite (LLen_fails _ st Redis.ConnError) by auto.
      eexists _, _. split; [reflexivity|]. done.
    + destruct (Redis.list_at (readyKey queue) (arriving st)) as [l|] eqn:Hl.
      * rewrite (ReadyCount_list _ _ l Hf Hl).
        eexists _, _. split; [reflexivity|]. simpl.
        split; [done|]. split; [lia|done].
      * unfold ReadyCount, mbind, M_bind.
        rewrite (LLen_fails _ st Redis.WrongType) by auto.
        eexists _, _. split; [reflexivity|]. done.
  - destruct (failing st) eqn:Hf.
    + unfold UnackedCount, mbind, M_bind.
      rewrite (LLen_fails _ st Redis.ConnError) by auto.
      eexists _, _. split; [reflexivity|]. done.
    + destruct (Redis.list_at (unackedKey queue) (arriving st)) as [l|] eqn:Hl.
      * rewrite (UnackedCount_list _ _ l Hf Hl).
        eexists _, _. split; [reflexivity|]. simpl.
        split; [done|]. split; [lia|done].
      * unfold UnackedCount, mbind, M_bind.
        rewrite (LLen_fails _ st Redis.WrongType) by auto.
        eexists _, _. split; [reflexivity|]. done.
Qed.

(** An error of [Publish] does not say that nothing was published: when the
    answer is lost, the payload is on the ready list. *)
Example Publish_answer_lost :
  ∃ e st',
    Publish things "d" loaded_answer_lost = (Done (Some e), st')
    ∧ Redis.list_at (readyKey things) (store st')
      = Some ["d"; "c"; "b"; "a"].
Proof. eexists _, _. split; vm_compute; reflexivity. Qed.

(** X6: whatever it answers, [Publish] changes no key but the ready key.
    When it answers nil the ready list has the payload on its left, in front
    of what it held.  When the ready key holds a value of another kind it
    answers an error and the store is left as it was. *)
Theorem Publish_nil_means_pushed queue p st :
  ∃ err st', Publish queue p st = (Done err, st')
    ∧ (∀ k, k ≠ readyKey queue → store st' !! k = arriving st !! k)
    ∧ (err = None →
       ∃ rd, Redis.list_at (readyKey queue) (arriving st) = Some rd
             ∧ Redis.list_at (readyKey queue) (store st') = Some (p :: rd))
    ∧ (Redis.list_at (readyKey queue) (arriving st) = None →
       is_Some err ∧ store st' = arriving st).
Proof.
  unfold Publish, Client.LPush, mbind, M_bind. rewrite call_served.
  destruct (failing st); cbv zeta.
  - eexists _, _. split; [reflexivity|]. simpl.
    split; [done|]. split; [done|]. eauto.
  - unfold Redis.list_at. simpl.
    destruct (arriving st !! readyKey queue) as [[l|m]|] eqn:E; simpl.
    + eexists _, _. split; [reflexivity|]. simpl.
      split; [by intros k ?; rewrite lookup_insert_ne|].
      split; [|done]. intros _. exists l.
      by rewrite lookup_insert_eq.
    + eexists _, _. split; [reflexivity|]. simpl.
      split; [done|]. split; [done|]. eauto.
    + eexists _, _. split; [reflexivity|]. simpl.
      split; [by intros k ?; rewrite lookup_insert_ne|].
      split; [|done]. intros _. exists [].
      by rewrite lookup_insert_eq.
Qed.

Lemma Publish_nil_means_pushed_witness :
  (∃ st', Publish things "d" loaded = (Done None, st')
          ∧ Redis.list_at (readyKey things) (store st')
            = Some ["d"; "c"; "b"; "a"])
  ∧ (∃ e st',
       Publish things "d"
         (boot {[ readyKey things := Redis.VSet {[ "x" ]} ]} [] "")
       = (Done (Some e), st')
       ∧ store st' = {[ readyKey things := Redis.VSet {[ "x" ]} ]}).
Proof.
  split.
  - destruct (Publish_nil_means_pushed things "d" loaded)
      as (err & st' & Hrun & _ & H & _).
    assert (err = None) as ->.
    { vm_compute in Hrun. by injection Hrun as <- _. }
    destruct (H eq_refl) as (rd & Hrd & Hrd').
    assert (rd = ["c"; "b"; "a"]) as ->.
    { vm_compute in Hrd. by injection Hrd as <-. }
    by exists st'.
  - destruct (Publish_nil_means_pushed things "d"
                (boot {[ readyKey things := Redis.VSet {[ "x" ]} ]} [] ""))
      as (err & st' & Hrun & _ & _ & H).
    destruct H as [[e ->] Hs]; [reflexivity|].
    by exists e, st'.
Defined.

(** X7: on a server that does not fail, a [Publish] after a [Purge]
    succeeds and leaves the ready list with that one payload, whatever the
    ready key held before, a value of the wrong kind included; [Purge]
    answers whether the key held anything. *)
Theorem Purge_then_Publish queue p st :
  calm 2 (env st) →
  ∃ st1 st2,
    Purge queue st
    = (Done (bool_decide (is_Some (store st !! readyKey queue))), st1)
    ∧ Publish queue p st1 = (Done None, st2)
    ∧ Redis.list_at (readyKey queue) (store st2) = Some [p]
    ∧ ∀ k, k ≠ readyKey queue → store st2 !! k = store st !! k.
Proof.
  intros Hc. destruct (calm_next _ _ Hc) as (Harr & Hf & Hc1).
  unfold Purge, mbind, M_bind. rewrite (Del_served _ _ Hf). simpl.
  set (st1 := served st _ _ _).
  assert (He1 : env st1 = tail (env st)) by done.
  rewrite <- He1 in Hc1.
  destruct (calm_next _ _ Hc1) as (Harr1 & Hf1 & _).
  assert (Hrd : Redis.list_at (readyKey queue) (arriving st1) = Some []).
  { rewrite Harr1. unfold Redis.list_at. simpl.
    by rewrite lookup_delete_eq. }
  exists st1. eexists.
  rewrite (Publish_pushes_left queue p st1 [] Hf1 Hrd).
  split; [|split; [reflexivity|]].
  - f_equal. f_equal. rewrite Harr.
    destruct (decide (is_Some (store st !! readyKey queue))) as [H|H].
    + by rewrite bool_decide_eq_true_2.
    + by rewrite bool_decide_eq_false_2.
  - simpl. rewrite list_at_insert. split; [done|].
    intros k Hk. rewrite lookup_insert_ne by done.
    rewrite Harr1. simpl. rewrite lookup_delete_ne by done.
    by rewrite Harr.
Qed.

Lemma Purge_then_Publish_witness :
  ∃ st1 st2,
    Purge things
      (boot {[ readyKey things := Redis.VSet {[ "x" ]} ]} [] "")
    = (Done true, st1)
    ∧ Publish things "a" st1 = (Done None, st2)
    ∧ Redis.list_at (readyKey things) (store st2) = Some ["a"].
Proof.
  destruct (Purge_then_Publish things "a"
              (boot {[ readyKey things := Redis.VSet {[ "x" ]} ]} [] ""))
    as (st1 & st2 & H1 & H2 & H3 & _).
  - apply calm_nil.
  - exists st1, st2. split; [|done].
    rewrite H1. reflexivity.
Defined.

(** ** Nothing is lost *)

(** X8: let a process that has taken nothing yet run alone on a server
    that does not fail, fetcher, workers and publishers taking turns in any
    order.  Then the ready list followed by the unacked list is what was
    published, the youngest first, followed by what the two lists held at
    the start: a delivery taken stays in the unacked list when it is handed
    to a consumer.  [ReadyCount] and [UnackedCount] answer the lengths, which
    add up to the number of payloads at the start and published since. *)
Theorem nothing_lost queue st rd0 before turns :
  readyKey queue ≠ unackedKey queue →
  env st = [] →
  Redis.list_at (readyKey queue) (store st) = Some rd0 →
  Redis.list_at (unackedKey queue) (store st) = Some before →
  taken queue (calls st) = [] →
  consumed st = [] →
  in_channel queue st = [] →
  ∃ rd ua st1 st2,
    let sys := run queue turns {| proc := st; fetcher := AtPop |} in
    Redis.list_at (readyKey queue) (store (proc sys)) = Some rd
    ∧ Redis.list_at (unackedKey queue) (store (proc sys)) = Some ua
    ∧ rd ++ ua = rev (published turns) ++ rd0 ++ before
    ∧ ReadyCount queue (proc sys) = (Done (Z.of_nat (length rd)), st1)
    ∧ UnackedCount queue (proc sys) = (Done (Z.of_nat (length ua)), st2)
    ∧ Z.of_nat (length rd) + Z.of_nat (length ua)
      = Z.of_nat (length rd0 + length before + length (published turns)).
Proof.
  intros Hne He Hrd Hua Htk Hco Hin.
  pose proof (run_settled queue before turns Hne _ _
                (settled_start queue st rd0 before He Hrd Hua Htk Hco Hin))
    as (He' & rd & Hrd' & Hua' & _ & Hord).
  destruct (quiet_server _ He') as [Hf Harr].
  assert (Heq : rd ++ rev (taken queue (calls (proc
                  (run queue turns {| proc := st; fetcher := AtPop |}))))
                ++ before
                = rev (published turns) ++ rd0 ++ before).
  { rewrite !app_assoc. f_equal.
    apply (f_equal (@rev string)) in Hord.
    unfold pop_order in Hord.
    rewrite !rev_app_distr, !rev_involutive in Hord. done. }
  eexists rd, _, _, _. cbv zeta.
  split; [done|]. split; [exact Hua'|]. split; [exact Heq|].
  split; [apply ReadyCount_list; by rewrite ?Harr|].
  split; [apply UnackedCount_list; by rewrite ?Harr|].
  apply (f_equal length) in Heq.
  rewrite ?length_app, ?length_rev in Heq.
  rewrite ?length_app, ?length_rev. lia.
Qed.

Lemma nothing_lost_witness :
  ∃ st1, ReadyCount things_consuming
           (proc (run things_consuming busy
                    {| proc := idle_consuming; fetcher := AtPop |}))
         = (Done 2, st1).
Proof.
  destruct (nothing_lost things_consuming idle_consuming [] [] busy)
    as (rd & ua & st1 & st2 & Hrd & _ & _ & Hrc & _).
  - vm_compute. discriminate.
  - reflexivity.
  - reflexivity.
  - reflexivity.
  - reflexivity.
  - reflexivity.
  - reflexivity.
  - cbv zeta in *.
    assert (rd = ["d"; "c"]) as ->.
    { vm_compute in Hrd. by injection Hrd as <-. }
    by exists st1.
Defined.

(** ** Closing and returning *)

Lemma Del_quiet key st :
  env st = [] →
  Client.Del key st
  = (Done {| Err := None;
             Val := if decide (is_Some (store st !! key)) then 1 else 0 |},
     served st (delete key (store st)) []
       [(Redis.Del key,
         Redis.RInt (if decide (is_Some (store st !! key)) then 1 else 0))]).
Proof.
  intros He. destruct (quiet_server st He) as [Hf Harr].
  rewrite (Del_served _ _ Hf), Harr, He. done.
Qed.

(** X9: [CloseInConnection] deletes the unacked key and nothing else: the
    deliveries that were in flight are gone, the ready list and the
    consumers set stay as they were.  After [ReturnUnackedDeliveries] it
    finds nothing to drop: the deliveries are in the ready list. *)
Theorem CloseInConnection_drops_unacked queue st u r :
  unackedKey queue ≠ readyKey queue →
  env st = [] →
  Redis.list_at (unackedKey queue) (store st) = Some u →
  Redis.list_at (readyKey queue) (store st) = Some r →
  (∃ st1, CloseInConnection queue st = (Done None, st1)
          ∧ store st1 = delete (unackedKey queue) (store st)
          ∧ Redis.list_at (unackedKey queue) (store st1) = Some []
          ∧ Redis.list_at (readyKey queue) (store st1) = Some r)
  ∧ (∃ st1 st2,
       ReturnUnackedDeliveries queue st
       = (Done (Z.of_nat (length u), None), st1)
       ∧ CloseInConnection queue st1 = (Done None, st2)
       ∧ Redis.list_at (unackedKey queue) (store st2) = Some []
       ∧ Redis.list_at (readyKey queue) (store st2) = Some (u ++ r)).
Proof.
  intros Hne He Hu Hr. split.
  - unfold CloseInConnection, mbind, M_bind. rewrite (Del_quiet _ _ He).
    eexists. split; [reflexivity|]. simpl. split; [done|].
    unfold Redis.list_at in *.
    rewrite lookup_delete_eq, lookup_delete_ne by done. done.
  - destruct (ReturnUnackedDeliveries_quiet queue st u r Hne He Hu Hr)
      as (st1 & Hrun & Hu1 & Hr1 & _ & He1).
    exists st1. eexists. split; [exact Hrun|].
    unfold CloseInConnection, mbind, M_bind. rewrite (Del_quiet _ _ He1).
    split; [reflexivity|]. simpl.
    unfold Redis.list_at in *.
    rewrite lookup_delete_eq, lookup_delete_ne by done. done.
Qed.

Lemma CloseInConnection_drops_unacked_witness :
  (∃ st1, CloseInConnection things in_flight_registered = (Done None, st1)
          ∧ store st1 !! consumersKey things
            = Some (Redis.VSet {[ "worker-x7Kq2m" ]})
          ∧ Redis.list_at (readyKey things) (store st1) = Some ["c"])
  ∧ (∃ st1 st2,
       ReturnUnackedDeliveries things in_flight_registered
       = (Done (2, None), st1)
       ∧ CloseInConnection things st1 = (Done None, st2)
       ∧ Redis.list_at (readyKey things) (store st2) = Some ["b"; "a"; "c"]).
Proof.
  destruct (CloseInConnection_drops_unacked things in_flight_registered
              ["b"; "a"] ["c"])
    as [(st1 & H1 & Hs & _ & Hr) (st1' & st2 & H2 & H3 & _ & Hr2)].
  - vm_compute. discriminate.
  - reflexivity.
  - reflexivity.
  - reflexivity.
  - split.
    + exists st1. split; [done|]. split; [|done].
      rewrite Hs. reflexivity.
    + by exists st1', st2.
Defined.

(** X10: a second [ReturnUnackedDeliveries] right after a first, on a
    server that does not fail, answers 0 and leaves both lists as the first
    left them. *)
Theorem ReturnUnackedDeliveries_twice queue st u r :
  unackedKey queue ≠ readyKey queue →
  env st = [] →
  Redis.list_at (unackedKey queue) (store st) = Some u →
  Redis.list_at (readyKey queue) (store st) = Some r →
  ∃ st1 st2,
    ReturnUnackedDeliveries queue st = (Done (Z.of_nat (length u), None), st1)
    ∧ ReturnUnackedDeliveries queue st1 = (Done (0, None), st2)
    ∧ Redis.list_at (unackedKey queue) (store st2) = Some []
    ∧ Redis.list_at (readyKey queue) (store st2) = Some (u ++ r)
    ∧ same_elsewhere queue (store st) (store st2).
Proof.
  intros Hne He Hu Hr.
  destruct (ReturnUnackedDeliveries_quiet queue st u r Hne He Hu Hr)
    as (st1 & Hrun & Hu1 & Hr1 & Hk1 & He1).
  destruct (ReturnUnackedDeliveries_quiet queue st1 [] (u ++ r)
              Hne He1 Hu1 Hr1)
    as (st2 & Hrun2 & Hu2 & Hr2 & Hk2 & _).
  exists st1, st2. do 4 (split; [done|]).
  by apply (same_elsewhere_trans queue _ (store st1)).
Qed.

Lemma ReturnUnackedDeliveries_twice_witness :
  ∃ st1 st2,
    ReturnUnackedDeliveries things in_flight = (Done (2, None), st1)
    ∧ ReturnUnackedDeliveries things st1 = (Done (0, None), st2)
    ∧ Redis.list_at (readyKey things) (store st2) = Some ["b"; "a"; "c"].
Proof.
  destruct (ReturnUnackedDeliveries_twice things in_flight ["b"; "a"] ["c"])
    as (st1 & st2 & H1 & H2 & _ & Hr & _).
  - vm_compute. discriminate.
  - reflexivity.
  - reflexivity.
  - reflexivity.
  - by exists st1, st2.
Defined.

(** ** What the answers of ReturnUnackedDeliveries tell *)

Lemma LLen_inv key st :
  ∃ r s', Client.LLen key st
          = (Done (IntCmd r),
             served st s' (tail (env st)) [(Redis.LLen key, r)])
          ∧ (Err (IntCmd r) = None →
             r = Redis.RInt (Val (IntCmd r)) ∧ 0 ≤ Val (IntCmd r)).
Proof.
  unfold Client.LLen, mbind, M_bind. rewrite call_served.
  eexists _, _. split; [reflexivity|].
  destruct (failing st); [done|]. simpl.
  destruct (arriving st !! key) as [[l|m]|]; simpl; try done.
  intros _. split; [done|lia].
Qed.

Lemma BRPopLPush_inv src dst st :
  (∃ r s es, Client.BRPopLPush src dst st
             = (Done (StringCmd r),
                served st s es [(Redis.BRPopLPush src dst, r)]))
  ∨ (∃ s es, Client.BRPopLPush src dst st = (Blocked, served st s es [])).
Proof.
  unfold Client.BRPopLPush, mbind, M_bind, call_waiting.
  destruct (await src dst (store st) (env st)) as [[[r|] s] es].
  - left. by exists r, s, es.
  - right. by exists s, es.
Qed.

Lemma StringCmd_ok r :
  Err (StringCmd r) = None → r = Redis.RBulk (Val (StringCmd r)).
Proof. by destruct r. Qed.

Lemma return_rounds_done queue k :
  ∀ st st',
    return_rounds queue k st = (Done None, st') →
    ∃ vs, length vs = k
          ∧ calls st'
            = calls st
              ++ map (fun v => (Redis.BRPopLPush (unackedKey queue)
                                  (readyKey queue), Redis.RBulk v)) vs.
Proof.
  induction k as [|k IH]; intros st st'.
  - intros [= <-]. exists []. by rewrite app_nil_r.
  - simpl. unfold mbind, M_bind.
    destruct (BRPopLPush_inv (unackedKey queue) (readyKey queue) st)
      as [(r & s & es & ->)|(s & es & ->)]; [|done].
    destruct (Err (StringCmd r)) eqn:E; [done|].
    intros H. apply IH in H as (vs & Hlen & Hcalls).
    exists (Val (StringCmd r) :: vs). split; [by simpl; rewrite Hlen|].
    rewrite Hcalls. simpl. rewrite <- app_assoc. simpl.
    by rewrite <- (StringCmd_ok r E).
Qed.

(** X11: whatever the server and the other clients do,
    [ReturnUnackedDeliveries] never answers an error together with a count
    other than 0; and when it answers a count [n] without error, [n] is not
    negative, the first length call answered [n], exactly [n] pop-pushes
    were made and each gave a payload, and the last length call answered
    0. *)
Theorem ReturnUnackedDeliveries_answers queue st n err st' :
  ReturnUnackedDeliveries queue st = (Done (n, err), st') →
  match err with
  | Some _ => n = 0
  | None =>
      0 ≤ n
      ∧ ∃ vs,
          length vs = Z.to_nat n
          ∧ calls st'
            = calls st
              ++ (Redis.LLen (unackedKey queue), Redis.RInt n)
                 :: map (fun v => (Redis.BRPopLPush (unackedKey queue)
                                     (readyKey queue), Redis.RBulk v)) vs
              ++ [(Redis.LLen (unackedKey queue), Redis.RInt 0)]
  end.
Proof.
  unfold ReturnUnackedDeliveries, mbind, M_bind, mret, M_ret.
  destruct (LLen_inv (unackedKey queue) st) as (r1 & s1 & -> & H1).
  destruct (Err (IntCmd r1)) eqn:E1; [by intros [= <- <- _]|].
  destruct (H1 eq_refl) as [Hr1 Hn1].
  destruct (return_rounds queue _ _) as [[[e|]| |] st2] eqn:E2;
    [by intros [= <- <- _]| |done..].
  apply return_rounds_done in E2 as (vs & Hlen & Hcalls).
  destruct (LLen_inv (unackedKey queue) st2) as (r2 & s2 & -> & H2).
  destruct (Err (IntCmd r2)) eqn:E3; [by intros [= <- <- _]|].
  destruct (H2 eq_refl) as [Hr2 _].
  destruct (decide (Val (IntCmd r2) ≠ 0)) as [|Hz]; [by intros [= <- <- _]|].
  intros [= <- <- <-]. split; [done|].
  exists vs. split; [done|]. simpl. rewrite Hcalls. simpl.
  rewrite <- !app_assoc. simpl.
  assert (Val (IntCmd r2) = 0) as Hz' by (destruct (decide (Val (IntCmd r2) = 0)); [done|by destruct Hz]).
  by rewrite Hr1, Hr2, Hz' at 1.
Qed.

Lemma ReturnUnackedDeliveries_answers_witness :
  (∃ vs, length vs = 2%nat
         ∧ calls (snd (ReturnUnackedDeliveries things in_flight))
           = (Redis.LLen (unackedKey things), Redis.RInt 2)
             :: map (fun v => (Redis.BRPopLPush (unackedKey things)
                                 (readyKey things), Redis.RBulk v)) vs
             ++ [(Redis.LLen (unackedKey things), Redis.RInt 0)]).
Proof.
  destruct (ReturnUnackedDeliveries_answers things in_flight 2 None
              (snd (ReturnUnackedDeliveries things in_flight)))
    as (_ & vs & Hlen & Hcalls).
  - vm_compute. reflexivity.
  - exists vs. split; [exact Hlen|]. exact Hcalls.
Defined.

(** ** Preparing *)

Lemma SAdd_inv key member st :
  ∃ r s', Client.SAdd key member st
          = (Done (IntCmd r),
             served st s' (tail (env st)) [(Redis.SAdd key member, r)])
          ∧ (Err (IntCmd r) = None →
             ∃ members, s' !! key = Some (Redis.VSet members)
                        ∧ member ∈ members)
          ∧ (is_Some (Err (IntCmd r)) → s' = arriving st).
Proof.
  unfold Client.SAdd, mbind, M_bind. rewrite call_served.
  eexists _, _. split; [reflexivity|].
  destruct (failing st); [by split; [|done]|]. simpl.
  destruct (arriving st !! key) as [[l|m]|]; simpl.
  - by split.
  - split; [|by intros [? ?]]. intros _. eexists.
    rewrite lookup_insert_eq. split; [done|set_solver].
  - split; [|by intros [? ?]]. intros _. eexists.
    rewrite lookup_insert_eq. split; [done|set_solver].
Qed.

(** X12: what [PrepareConsumption] leaves behind, whatever the server
    does.  When it answers true the queue was not prepared, the buffer size
    is one that [make] takes, one channel of that capacity was made and is
    the queue's, and one goroutine, that of [consume], was started.  When it
    answers false the queue is as it was, no channel was made and no
    goroutine started, so that the call can be made again.  It panics only
    on a buffer size that [make] refuses, a negative one or one beyond
    [maxChanSize], and then after the queue name was added to the queues
    set, with no channel made and no goroutine started.  It never
    blocks. *)
Theorem PrepareConsumption_outcome bufferSize queue st :
  match PrepareConsumption bufferSize queue st with
  | (Done (true, queue'), st') =>
      deliveryChan queue = None
      ∧ 0 ≤ bufferSize ≤ maxChanSize
      ∧ queue' = set_deliveryChan queue (Some (length (chans st)))
      ∧ chans st'
        = chans st ++ [{| capacity := bufferSize; buffered := [] |}]
      ∧ started st' = started st ++ [GoConsume queue']
  | (Done (false, queue'), st') =>
      queue' = queue ∧ chans st' = chans st ∧ started st' = started st
  | (Panic msg, st') =>
      msg = ChanSizeOutOfRange
      ∧ (bufferSize < 0 ∨ maxChanSize < bufferSize)
      ∧ deliveryChan queue = None
      ∧ chans st' = chans st ∧ started st' = started st
      ∧ ∃ members, store st' !! queuesKey queue = Some (Redis.VSet members)
                   ∧ name queue ∈ members
  | (Blocked, _) => False
  end.
Proof.
  unfold PrepareConsumption.
  destruct (deliveryChan queue) as [a|] eqn:Hch; [done|].
  unfold mbind, M_bind, mret, M_ret.
  destruct (SAdd_inv (queuesKey queue) (name queue) st)
    as (r & s' & -> & Hok & _).
  destruct (Err (IntCmd r)) eqn:E; [done|].
  unfold make_chan.
  destruct ((bufferSize <? 0) || (maxChanSize <? bufferSize)) eqn:Hb.
  - simpl. split; [done|]. split; [lia|]. do 3 (split; [done|]).
    by apply Hok.
  - unfold Client.LPush, mbind, M_bind. rewrite call_served. simpl.
    split; [done|]. split; [lia|]. done.
Qed.

(** ** The consumers of a queue *)

Lemma AddConsumer_inv tag consumer queue st name st' :
  is_Some (deliveryChan queue) →
  AddConsumer tag consumer queue st = (Done name, st') →
  (6 ≤ length (entropy st))%nat
  ∧ ((name = "" ∧ started st' = started st
      ∧ store st' = arriving st)
     ∨ (name = tag +:+ "-"
               +:+ String.string_of_list_ascii (take 6 (entropy st))
        ∧ started st' = started st ++ [GoAddConsumer queue consumer]
        ∧ ∃ members, store st' !! consumersKey queue
                     = Some (Redis.VSet members)
                     ∧ name ∈ members)).
Proof.
  intros [a Hch]. unfold AddConsumer. rewrite Hch.
  unfold mbind, M_bind, mret, M_ret, uniuri_NewLen.
  destruct (decide _) as [Hlen|]; [|done].
  match goal with
  | |- context [Client.SAdd ?k ?m ?s] =>
      destruct (SAdd_inv k m s) as (r & s' & -> & Hok & Hfail)
  end.
  destruct (Err (IntCmd r)) eqn:E.
  - intros [= <- <-]. split; [done|]. left. simpl.
    split; [done|]. split; [done|]. apply Hfail. eauto.
  - intros [= <- <-]. split; [done|]. right. simpl.
    split; [done|]. split; [done|]. by apply Hok.
Qed.

Lemma tagged_not_empty tag token : tag +:+ "-" +:+ token ≠ "".
Proof. by destruct tag. Qed.

(** X13: on a prepared queue, when the random source gives its six
    characters, [AddConsumer] answers the empty string or the tag, a dash
    and the six characters, never anything else, and the latter is never
    empty.  With the empty string no worker was started; with a name, the
    name is in the consumers set and one worker was started. *)
Theorem AddConsumer_outcome tag consumer queue st :
  is_Some (deliveryChan queue) →
  (6 ≤ length (entropy st))%nat →
  ∃ name st',
    AddConsumer tag consumer queue st = (Done name, st')
    ∧ ((name = "" ∧ started st' = started st)
       ∨ (name ≠ ""
          ∧ name = tag +:+ "-"
                   +:+ String.string_of_list_ascii (take 6 (entropy st))
          ∧ started st' = started st ++ [GoAddConsumer queue consumer]
          ∧ ∃ members, store st' !! consumersKey queue
                       = Some (Redis.VSet members)
                       ∧ name ∈ members)).
Proof.
  intros Hch Hlen.
  destruct (AddConsumer tag consumer queue st) as [[name| |] st'] eqn:Hrun.
  - exists name, st'. split; [done|].
    destruct (AddConsumer_inv _ _ _ _ _ _ Hch Hrun)
      as (_ & [(Hn & Hs & _)|(Hn & Hs & Hm)]); [by left|right].
    split; [|done]. rewrite Hn. apply tagged_not_empty.
  - exfalso. revert Hrun. destruct Hch as [a Hch].
    unfold AddConsumer. rewrite Hch.
    unfold mbind, M_bind, mret, M_ret, uniuri_NewLen.
    rewrite decide_True by done.
    match goal with
    | |- context [Client.SAdd ?k ?m ?s] =>
        destruct (SAdd_inv k m s) as (r & s' & -> & _)
    end.
    by destruct (Err (IntCmd r)).
  - exfalso. revert Hrun. destruct Hch as [a Hch].
    unfold AddConsumer. rewrite Hch.
    unfold mbind, M_bind, mret, M_ret, uniuri_NewLen.
    rewrite decide_True by done.
    match goal with
    | |- context [Client.SAdd ?k ?m ?s] =>
        destruct (SAdd_inv k m s) as (r & s' & -> & _)
    end.
    by destruct (Err (IntCmd r)).
Qed.

Lemma AddConsumer_outcome_witness :
  (∃ st', AddConsumer "worker" (Handler 0) things_consuming prepared_random
          = (Done "worker-x7Kq2m", st')
          ∧ started st'
            = started prepared_random
              ++ [GoAddConsumer things_consuming (Handler 0)])
  ∧ (∃ st', AddConsumer "worker" (Handler 0) things_consuming
              (boot ∅ [{| others := []; fault := true |}] "x7Kq2mZZ")
            = (Done "", st')
            ∧ started st' = []).
Proof.
  split.
  - destruct (AddConsumer_outcome "worker" (Handler 0) things_consuming
                prepared_random)
      as (name & st' & Hrun & [(Hn & _)|(_ & Hn & Hs & _)]).
    + by exists 0%nat.
    + vm_compute. lia.
    + exfalso. rewrite Hn in Hrun. vm_compute in Hrun. discriminate Hrun.
    + exists st'. split; [|done]. rewrite Hrun, Hn. reflexivity.
  - destruct (AddConsumer_outcome "worker" (Handler 0) things_consuming
                (boot ∅ [{| others := []; fault := true |}] "x7Kq2mZZ"))
      as (name & st' & Hrun & [(Hn & Hs)|(Hne & _)]).
    + by exists 0%nat.
    + vm_compute. lia.
    + exists st'. split; [by rewrite Hrun, Hn|exact Hs].
    + exfalso. apply Hne. vm_compute in Hrun. by injection Hrun as <- _.
Defined.

Lemma GetConsumers_set queue st m :
  failing st = false →
  set_at (consumersKey queue) (arriving st) = Some m →
  ∃ names r,
    GetConsumers queue st
    = (Done names,
       served st (arriving st) (tail (env st))
         [(Redis.SMembers (consumersKey queue), r)])
    ∧ ∀ x, x ∈ names ↔ x ∈ m.
Proof.
  intros Hf Hm. unfold GetConsumers, Client.SMembers, mbind, M_bind.
  rewrite call_served, Hf. cbv zeta. unfold set_at in Hm. simpl.
  destruct (arriving st !! consumersKey queue) as [[l|m']|]; [done| |].
  - injection Hm as ->. eexists _, _. split; [reflexivity|].
    intros x. apply elem_of_elements.
  - injection Hm as <-. eexists _, _. split; [reflexivity|].
    intros x. set_solver.
Qed.

(** X14: a name that [AddConsumer] answers is among the names that a
    [GetConsumers] right after it gives, when that call is served at
    once. *)
Theorem AddConsumer_then_GetConsumers tag consumer queue st name st1 :
  is_Some (deliveryChan queue) →
  AddConsumer tag consumer queue st = (Done name, st1) →
  name ≠ "" →
  calm 1 (env st1) →
  ∃ names st2, GetConsumers queue st1 = (Done names, st2) ∧ name ∈ names.
Proof.
  intros Hch Hrun Hne Hc.
  destruct (AddConsumer_inv _ _ _ _ _ _ Hch Hrun)
    as (_ & [(Hn & _)|(_ & _ & members & Hm & Hin)]); [done|].
  destruct (calm_next _ _ Hc) as (Harr & Hf & _).
  destruct (GetConsumers_set queue st1 members Hf)
    as (names & r & Hget & Hnames).
  { unfold set_at. by rewrite Harr, Hm. }
  exists names. eexists. split; [exact Hget|]. by apply Hnames.
Qed.

Lemma AddConsumer_then_GetConsumers_witness :
  ∃ names st2,
    GetConsumers things_consuming
      (snd (AddConsumer "worker" (Handler 0) things_consuming
              prepared_random))
    = (Done names, st2)
    ∧ "worker-x7Kq2m" ∈ names.
Proof.
  apply (AddConsumer_then_GetConsumers "worker" (Handler 0) things_consuming
           prepared_random).
  - by exists 0%nat.
  - vm_compute. reflexivity.
  - discriminate.
  - apply calm_nil.
Defined.

Lemma SRem_set key member st m :
  failing st = false →
  set_at key (arriving st) = Some m →
  ∃ s', Client.SRem key member st
        = (Done {| Err := None;
                   Val := if decide (member ∈ m) then 1 else 0 |},
           served st s' (tail (env st))
             [(Redis.SRem key member,
               Redis.RInt (if decide (member ∈ m) then 1 else 0))])
        ∧ set_at key s' = Some (m ∖ {[member]})
        ∧ ∀ k, k ≠ key → s' !! k = arriving st !! k.
Proof.
  intros Hf Hm. unfold Client.SRem, mbind, M_bind.
  rewrite call_served, Hf. cbv zeta. unfold set_at in Hm. simpl.
  destruct (arriving st !! key) as [[l|m']|] eqn:E; [done| |].
  - injection Hm as ->. destruct (decide (member ∈ m)) as [Hin|Hin].
    + eexists. split; [reflexivity|]. simpl.
      destruct (decide (m ∖ {[member]} = ∅)) as [He|He].
      * unfold set_at. rewrite lookup_delete_eq, He. split; [done|].
        intros k ?. by rewrite lookup_delete_ne.
      * unfold set_at. rewrite lookup_insert_eq. split; [done|].
        intros k ?. by rewrite lookup_insert_ne.
    + eexists. split; [reflexivity|]. simpl. unfold set_at. rewrite E.
      split; [|done]. f_equal. symmetry. apply difference_disjoint_L.
      by apply disjoint_singleton_r.
  - injection Hm as <-. rewrite decide_False by apply not_elem_of_empty.
    eexists. split; [reflexivity|]. simpl. unfold set_at. rewrite E.
    split; [|done]. f_equal. symmetry. apply difference_disjoint_L.
    apply disjoint_empty_l.
Qed.

(** X15: on a server that does not fail, with the consumers key holding
    a set or nothing, [RemoveConsumer] answers true exactly when the name was
    in the set; a [GetConsumers] after it gives the other names of the set
    and not that one; no other key has changed. *)
Theorem RemoveConsumer_removes queue name st m :
  calm 2 (env st) →
  set_at (consumersKey queue) (store st) = Some m →
  ∃ st1 names st2,
    RemoveConsumer queue name st = (Done (bool_decide (name ∈ m)), st1)
    ∧ (∀ k, k ≠ consumersKey queue → store st1 !! k = store st !! k)
    ∧ GetConsumers queue st1 = (Done names, st2)
    ∧ ∀ x, x ∈ names ↔ x ∈ m ∧ x ≠ name.
Proof.
  intros Hc Hm. destruct (calm_next _ _ Hc) as (Harr & Hf & Hc1).
  destruct (SRem_set (consumersKey queue) name st m Hf)
    as (s' & Hrem & Hset & Hk); [by rewrite Harr|].
  set (st1 := served st s' (tail (env st))
                [(Redis.SRem (consumersKey queue) name,
                  Redis.RInt (if decide (name ∈ m) then 1 else 0))]).
  assert (He1 : env st1 = tail (env st)) by done.
  rewrite <- He1 in Hc1.
  destruct (calm_next _ _ Hc1) as (Harr1 & Hf1 & _).
  destruct (GetConsumers_set queue st1 (m ∖ {[name]}) Hf1)
    as (names & r & Hget & Hnames); [by rewrite Harr1|].
  exists st1, names. eexists.
  split; [|split; [|split; [exact Hget|]]].
  - unfold RemoveConsumer, mbind, M_bind. rewrite Hrem. simpl.
    fold st1. f_equal. f_equal.
    destruct (decide (name ∈ m)).
    + by rewrite bool_decide_eq_true_2.
    + by rewrite bool_decide_eq_false_2.
  - intros k Hne. simpl. rewrite Hk by done. by rewrite Harr.
  - intros x. by rewrite Hnames, elem_of_difference, elem_of_singleton.
Qed.

Lemma RemoveConsumer_removes_witness :
  ∃ st1 names st2,
    RemoveConsumer things "w-aaaaaa" two_consumers = (Done true, st1)
    ∧ GetConsumers things st1 = (Done names, st2)
    ∧ "w-bbbbbb" ∈ names ∧ "w-aaaaaa" ∉ names.
Proof.
  destruct (RemoveConsumer_removes things "w-aaaaaa" two_consumers
              {[ "w-aaaaaa"; "w-bbbbbb" ]})
    as (st1 & names & st2 & H1 & _ & H2 & Hn).
  - apply calm_nil.
  - reflexivity.
  - exists st1, names, st2. split.
    { rewrite H1, bool_decide_eq_true_2; [done|].
      apply elem_of_union_l. by apply elem_of_singleton. }
    split; [done|]. split.
    + apply Hn. split; [|discriminate].
      apply elem_of_union_r. by apply elem_of_singleton.
    + intros H. apply Hn in H as [_ H]. by apply H.
Defined.

(** X16: on a server that does not fail, a [GetConsumers] after a
    [RemoveAllConsumers] gives no name, whatever the consumers key held;
    [RemoveAllConsumers] answers 1 when the key held something and 0 when it
    did not, and touches no other key. *)
Theorem RemoveAllConsumers_then_GetConsumers queue st :
  calm 2 (env st) →
  ∃ st1 st2,
    RemoveAllConsumers queue st
    = (Done (if decide (is_Some (store st !! consumersKey queue))
             then 1 else 0), st1)
    ∧ store st1 = delete (consumersKey queue) (store st)
    ∧ GetConsumers queue st1 = (Done [], st2).
Proof.
  intros Hc. destruct (calm_next _ _ Hc) as (Harr & Hf & Hc1).
  unfold RemoveAllConsumers, mbind, M_bind.
  rewrite (Del_served _ _ Hf). simpl.
  set (st1 := served st _ _ _).
  assert (He1 : env st1 = tail (env st)) by done.
  rewrite <- He1 in Hc1.
  destruct (calm_next _ _ Hc1) as (Harr1 & Hf1 & _).
  exists st1. eexists. rewrite Harr. split; [done|].
  split; [by simpl; rewrite Harr|].
  unfold GetConsumers, Client.SMembers, mbind, M_bind.
  rewrite call_served, Hf1. cbv zeta. rewrite Harr1. simpl.
  rewrite lookup_delete_eq. reflexivity.
Qed.

Lemma RemoveAllConsumers_then_GetConsumers_witness :
  ∃ st1 st2,
    RemoveAllConsumers things two_consumers = (Done 1, st1)
    ∧ GetConsumers things st1 = (Done [], st2).
Proof.
  destruct (RemoveAllConsumers_then_GetConsumers things two_consumers)
    as (st1 & st2 & H1 & _ & H2).
  - apply calm_nil.
  - exists st1, st2. split; [|done]. rewrite H1. reflexivity.
Defined.

(** ** The channel *)

Lemma fetcher_pop_any queue st :
  ∃ st' f',
    fetcher_turn queue {| proc := st; fetcher := AtPop |}
    = {| proc := st'; fetcher := f' |}
    ∧ chans st' = chans st
    ∧ consumed st' = consumed st
    ∧ (f' = AtPop ∨ ∃ v, f' = AtSend (newDelivery v (unackedKey queue))).
Proof.
  unfold fetcher_turn, consume. cbn [proc fetcher].
  unfold mbind, M_bind, mret, M_ret.
  destruct (BRPopLPush_inv (readyKey queue) (unackedKey queue) st)
    as [(r & s & es & ->)|(s & es & ->)].
  - destruct (Err (StringCmd r)); simpl; eexists _, _;
      (split; [reflexivity|]); eauto.
  - eexists _, _. split; [reflexivity|]. eauto.
Qed.

Lemma Publish_keeps queue p st :
  chans (snd (Publish queue p st)) = chans st
  ∧ consumed (snd (Publish queue p st)) = consumed st.
Proof.
  unfold Publish, Client.LPush, mbind, M_bind. by rewrite call_served.
Qed.

Lemma turn_well_channelled queue a bound t sys :
  deliveryChan queue = Some a →
  well_channelled queue a bound sys →
  well_channelled queue a bound (turn queue t sys).
Proof.
  intros Hch (ch & Hc & Hcap & Hlen & Hall).
  destruct sys as [st f]. cbn [proc fetcher] in *.
  destruct t as [|c|p]; cbn [turn].
  - destruct f as [|d|].
    + destruct (fetcher_pop_any queue st)
        as (st' & f' & -> & Hchans & Hcons & Hf').
      exists ch. cbn [proc fetcher]. rewrite Hchans, Hcons.
      do 3 (split; [done|]).
      destruct Hf' as [->|[v ->]]; [done|].
      simpl in *. apply Forall_app. apply Forall_app in Hall as [H1 H2].
      split; [done|]. by constructor.
    + unfold fetcher_turn, consume, chan_send, mbind, M_bind, mret, M_ret.
      cbn [proc fetcher]. rewrite Hch, Hc.
      destruct (decide _) as [Hroom|]; cbn [proc fetcher].
      * eexists. simpl. rewrite list_lookup_insert_eq
          by (by eapply lookup_lt_Some).
        split; [done|]. simpl. split; [done|].
        split; [rewrite length_app; simpl; lia|].
        simpl in Hall. rewrite <- app_assoc. simpl.
        apply Forall_app in Hall as [H1 H2]. apply Forall_app. done.
      * exists ch. done.
    + exists ch. done.
  - unfold addConsumer. cbn [proc fetcher]. rewrite Hch, Hc.
    destruct (buffered ch) as [|d rest] eqn:Hb.
    + destruct f as [|d|];
        [exists ch; rewrite Hb; repeat split; assumption|
        |exists ch; rewrite Hb; repeat split; assumption].
      exists ch. cbn [proc fetcher]. rewrite Hb. simpl.
      do 3 (split; [done|]).
      simpl in Hall. apply Forall_cons in Hall as [Hd Hall].
      rewrite map_app. apply Forall_app. split; [done|]. by constructor.
    + eexists. cbn [proc fetcher]. simpl.
      rewrite list_lookup_insert_eq by (by eapply lookup_lt_Some).
      split; [done|]. simpl. split; [done|].
      split; [simpl in Hlen; lia|].
      simpl in Hall. apply Forall_cons in Hall as [Hd Hall].
      apply Forall_app in Hall as [H1 Hall].
      apply Forall_app in Hall as [H2 H3].
      rewrite map_app. rewrite !Forall_app. simpl.
      split; [done|]. split; [done|]. split; [done|]. by constructor.
  - destruct (Publish_keeps queue p st) as [Hchans Hcons].
    exists ch. cbn [proc fetcher]. by rewrite Hchans, Hcons.
Qed.

Lemma run_well_channelled queue a bound turns :
  deliveryChan queue = Some a →
  ∀ sys,
    well_channelled queue a bound sys →
    well_channelled queue a bound (run queue turns sys).
Proof.
  intros Hch. induction turns as [|t turns IH]; intros sys Hw; [done|].
  rewrite run_cons. apply IH. by apply turn_well_channelled.
Qed.

Lemma well_channelled_start queue a bound st :
  chans st !! a = Some {| capacity := bound; buffered := [] |} →
  0 ≤ bound →
  consumed st = [] →
  well_channelled queue a bound {| proc := st; fetcher := AtPop |}.
Proof.
  intros Hc Hb Hco. eexists. split; [exact Hc|]. simpl.
  rewrite Hco. done.
Qed.

Lemma pipeline_bounded queue a bound sys :
  deliveryChan queue = Some a →
  well_channelled queue a bound sys →
  (length (pipeline queue sys) ≤ Z.to_nat bound + 1)%nat.
Proof.
  intros Hch (ch & Hc & Hcap & Hlen & _).
  unfold pipeline, in_channel. rewrite Hch, Hc.
  rewrite length_map, length_app.
  assert (length (in_hand (fetcher sys)) ≤ 1)%nat
    by (destruct (fetcher sys); simpl; lia).
  lia.
Qed.

Lemma taken_no_payload queue c r :
  is_Some (Err (StringCmd r)) → taken queue [(c, r)] = [].
Proof. intros [e He]. unfold taken. by destruct c, r. Qed.

Lemma in_channel_chans queue st st' :
  chans st' = chans st → in_channel queue st' = in_channel queue st.
Proof. intros H. unfold in_channel. by rewrite H. Qed.

(** A turn of the fetcher at its pop-push: what it takes is in its hand. *)
Lemma fetcher_pop_accounted queue st :
  ∃ st' f',
    fetcher_turn queue {| proc := st; fetcher := AtPop |}
    = {| proc := st'; fetcher := f' |}
    ∧ chans st' = chans st
    ∧ consumed st' = consumed st
    ∧ taken queue (calls st')
      = taken queue (calls st) ++ map payload (in_hand f').
Proof.
  unfold fetcher_turn, consume. cbn [proc fetcher].
  unfold mbind, M_bind, mret, M_ret.
  destruct (BRPopLPush_inv (readyKey queue) (unackedKey queue) st)
    as [(r & s & es & ->)|(s & es & ->)].
  - destruct (Err (StringCmd r)) as [e|] eqn:E; eexists _, _;
      (split; [reflexivity|]); (split; [done|]); (split; [done|]);
      cbn [calls served in_hand map]; rewrite taken_app.
    + by rewrite taken_no_payload by (rewrite E; eauto).
    + by rewrite (StringCmd_ok r E) at 1; rewrite taken_move.
  - eexists _, _. split; [reflexivity|].
    cbn [calls served in_hand map]. by rewrite !app_nil_r.
Qed.

Lemma Publish_calls queue p st :
  ∃ r, calls (snd (Publish queue p st))
       = calls st ++ [(Redis.LPush (readyKey queue) p, r)].
Proof.
  unfold Publish, Client.LPush, mbind, M_bind. rewrite call_served.
  by eexists.
Qed.

(** Every turn, on any server, keeps the account: what the fetcher took is
    what the consumers were handed and what waits in the channel or in the
    fetcher's hand, in that order. *)
Lemma turn_accounted queue t sys :
  taken queue (calls (proc sys)) = handled (proc sys) ++ pipeline queue sys →
  taken queue (calls (proc (turn queue t sys)))
  = handled (proc (turn queue t sys)) ++ pipeline queue (turn queue t sys).
Proof.
  intros Htk. destruct sys as [st f]. cbn [proc fetcher] in Htk.
  destruct t as [|c|p]; cbn [turn].
  - destruct f as [|d|].
    + destruct (fetcher_pop_accounted queue st)
        as (st' & f' & -> & Hchans & Hcons & Htk').
      cbn [proc]. rewrite Htk', Htk. unfold handled, pipeline.
      cbn [proc fetcher]. rewrite Hcons, (in_channel_chans _ _ _ Hchans).
      simpl. by rewrite app_nil_r, map_app, app_assoc.
    + unfold fetcher_turn, consume, chan_send, mbind, M_bind, mret, M_ret.
      cbn [proc fetcher].
      destruct (deliveryChan queue) as [a|] eqn:Hch; [|exact Htk].
      destruct (chans st !! a) as [ch|] eqn:Hc; [|exact Htk].
      destruct (decide _); [|exact Htk].
      cbn [proc fetcher].
      change (calls (set_chans ?c ?s)) with (calls s).
      change (handled (set_chans ?c ?s)) with (handled s).
      rewrite Htk. unfold pipeline. cbn [proc fetcher].
      rewrite (in_channel_sent _ _ _ _ _ Hch Hc). simpl.
      by rewrite app_nil_r.
    + exact Htk.
  - unfold addConsumer. cbn [proc fetcher].
    destruct (deliveryChan queue) as [a|] eqn:Hch; [|exact Htk].
    destruct (chans st !! a) as [ch|] eqn:Hc; [|exact Htk].
    destruct (buffered ch) as [|d rest] eqn:Hb.
    + destruct f as [|d|]; try exact Htk.
      cbn [proc fetcher].
      change (calls (Consume ?c ?d ?s)) with (calls s).
      rewrite Htk, handled_Consume. unfold pipeline. cbn [proc fetcher].
      rewrite in_channel_Consume.
      assert (Hin : in_channel queue st = [])
        by (unfold in_channel; by rewrite Hch, Hc).
      rewrite Hin. simpl. by rewrite app_nil_r.
    + cbn [proc fetcher].
      change (calls (Consume ?c ?d ?s)) with (calls s).
      change (calls (set_chans ?c ?s)) with (calls s).
      rewrite Htk, handled_Consume. unfold pipeline. cbn [proc fetcher].
      rewrite in_channel_Consume.
      assert (Hin : in_channel queue st = d :: rest)
        by (unfold in_channel; by rewrite Hch, Hc).
      rewrite Hin, (in_channel_received _ _ _ _ _ Hch Hc).
      change (handled (set_chans ?c ?s)) with (handled s).
      simpl. by rewrite <- app_assoc.
  - destruct (Publish_calls queue p st) as [r Hcalls].
    destruct (Publish_keeps queue p st) as [Hchans Hcons].
    cbn [proc fetcher]. rewrite Hcalls, taken_app.
    assert (Hno : taken queue [(Redis.LPush (readyKey queue) p, r)] = [])
      by (unfold taken; done).
    rewrite Hno, app_nil_r, Htk. unfold handled, pipeline.
    cbn [proc fetcher]. by rewrite Hcons, (in_channel_chans _ _ _ Hchans).
Qed.

Lemma run_accounted queue turns :
  ∀ sys,
    taken queue (calls (proc sys)) = handled (proc sys) ++ pipeline queue sys →
    taken queue (calls (proc (run queue turns sys)))
    = handled (proc (run queue turns sys))
      ++ pipeline queue (run queue turns sys).
Proof.
  induction turns as [|t turns IH]; intros sys Htk; [done|].
  rewrite run_cons. apply IH. by apply turn_accounted.
Qed.

(** X17: whatever the server, the publishers and the workers do, the
    payloads the fetcher has taken are those handed to consumers, in the
    order in which they were taken, followed by those that wait; and those
    that wait are never more than the capacity of the channel and one: the
    fetcher keeps one in its hand while the channel is full, and takes no
    other. *)
Theorem backpressure queue a bound st turns :
  deliveryChan queue = Some a →
  chans st !! a = Some {| capacity := bound; buffered := [] |} →
  0 ≤ bound →
  consumed st = [] →
  taken queue (calls st) = [] →
  ∃ waiting,
    let sys := run queue turns {| proc := st; fetcher := AtPop |} in
    taken queue (calls (proc sys)) = handled (proc sys) ++ waiting
    ∧ (length waiting ≤ Z.to_nat bound + 1)%nat.
Proof.
  intros Hch Hc Hb Hco Htk.
  exists (pipeline queue (run queue turns {| proc := st; fetcher := AtPop |})).
  cbv zeta. split.
  - apply run_accounted. cbn [proc]. rewrite Htk.
    unfold handled, pipeline, in_channel. cbn [proc fetcher].
    by rewrite Hco, Hch, Hc.
  - apply (pipeline_bounded queue a); [done|].
    apply run_well_channelled; [done|].
    by apply well_channelled_start.
Qed.

Lemma backpressure_witness :
  ∃ waiting,
    taken things_consuming
      (calls (proc (run things_consuming busy
                      {| proc := idle_consuming; fetcher := AtPop |})))
    = ["a"] ++ waiting
    ∧ (length waiting ≤ 2)%nat.
Proof.
  destruct (backpressure things_consuming 0%nat 1 idle_consuming busy)
    as (waiting & Htk & Hlen);
    [reflexivity|reflexivity|lia|reflexivity|reflexivity|].
  exists waiting. cbv zeta in Htk. split; [|exact Hlen].
  rewrite Htk. reflexivity.
Defined.

(** X18: whatever the server, the publishers and the workers do, every
    delivery handed to a consumer carries the unacked key of the queue it
    was taken from. *)
Theorem deliveries_carry_unackedKey queue a bound st turns :
  deliveryChan queue = Some a →
  chans st !! a = Some {| capacity := bound; buffered := [] |} →
  0 ≤ bound →
  consumed st = [] →
  Forall (fun cd => inUnacked cd.2 = unackedKey queue)
    (consumed (proc (run queue turns {| proc := st; fetcher := AtPop |}))).
Proof.
  intros Hch Hc Hb Hco.
  destruct (run_well_channelled queue a bound turns Hch _
              (well_channelled_start queue a bound st Hc Hb Hco))
    as (ch & _ & _ & _ & Hall).
  rewrite !Forall_app in Hall. destruct Hall as (_ & _ & Hall).
  by apply Forall_map in Hall.
Qed.

Lemma deliveries_carry_unackedKey_witness :
  Forall (fun cd => inUnacked cd.2 = unackedKey things_consuming)
    (consumed (proc (run things_consuming busy
                       {| proc := idle_consuming; fetcher := AtPop |}))).
Proof.
  apply (deliveries_carry_unackedKey things_consuming 0%nat 1
           idle_consuming busy);
    [reflexivity|reflexivity|lia|reflexivity].
Defined.

Lemma run_no_worker queue turns :
  (∀ c, OfWorker c ∉ turns) →
  ∀ sys, consumed (proc (run queue turns sys)) = consumed (proc sys).
Proof.
  induction turns as [|t turns IH]; intros Hno sys; [done|].
  rewrite run_cons, IH.
  - destruct (turn_consumed queue t sys) as [->|(c & d & -> & _)]; [done|].
    destruct (Hno c). by left.
  - intros c Hc. apply (Hno c). by right.
Qed.

(** X19: on a server that does not fail and with no worker taking turns,
    the fetcher takes no more deliveries than the capacity of the channel and
    one, however often it gets its turn: the others stay in the ready
    list. *)
Theorem fetcher_stops_when_full queue a bound st rd0 before turns :
  readyKey queue ≠ unackedKey queue →
  deliveryChan queue = Some a →
  chans st !! a = Some {| capacity := bound; buffered := [] |} →
  0 ≤ bound →
  env st = [] →
  Redis.list_at (readyKey queue) (store st) = Some rd0 →
  Redis.list_at (unackedKey queue) (store st) = Some before →
  taken queue (calls st) = [] →
  consumed st = [] →
  (∀ c, OfWorker c ∉ turns) →
  ∃ rd,
    let sys := run queue turns {| proc := st; fetcher := AtPop |} in
    Redis.list_at (readyKey queue) (store (proc sys)) = Some rd
    ∧ (length (taken queue (calls (proc sys))) ≤ Z.to_nat bound + 1)%nat
    ∧ (length rd0 + length (published turns)
       ≤ length rd + Z.to_nat bound + 1)%nat.
Proof.
  intros Hne Hch Hc Hb He Hrd Hua Htk Hco Hno.
  assert (Hin : in_channel queue st = [])
    by (unfold in_channel; by rewrite Hch, Hc).
  pose proof (run_settled queue before turns Hne _ _
                (settled_start queue st rd0 before He Hrd Hua Htk Hco Hin))
    as (_ & rd & Hrd' & _ & Htk' & Hord).
  pose proof (pipeline_bounded queue a bound _ Hch
                (run_well_channelled queue a bound turns Hch _
                   (well_channelled_start queue a bound st Hc Hb Hco)))
    as Hbp.
  exists rd. cbv zeta. split; [done|].
  assert (Hh : handled (proc (run queue turns
                                {| proc := st; fetcher := AtPop |})) = []).
  { unfold handled. rewrite (run_no_worker queue turns Hno). simpl.
    by rewrite Hco. }
  rewrite Hh in Htk'. simpl in Htk'. rewrite Htk'. split; [done|].
  apply (f_equal length) in Hord. unfold pop_order in Hord.
  rewrite !length_app, !length_rev, Htk' in Hord. lia.
Qed.

Lemma fetcher_stops_when_full_witness :
  (length (taken things_consuming
             (calls (proc (run things_consuming
                             [ OfPublisher "a"; OfPublisher "b";
                               OfPublisher "c"; OfFetcher; OfFetcher;
                               OfFetcher; OfFetcher; OfFetcher; OfFetcher ]
                             {| proc := idle_consuming;
                                fetcher := AtPop |}))))
   ≤ 2)%nat.
Proof.
  destruct (fetcher_stops_when_full things_consuming 0%nat 1 idle_consuming
              [] []
              [ OfPublisher "a"; OfPublisher "b"; OfPublisher "c";
                OfFetcher; OfFetcher; OfFetcher; OfFetcher; OfFetcher;
                OfFetcher ])
    as (rd & _ & H & _).
  - vm_compute. discriminate.
  - reflexivity.
  - reflexivity.
  - lia.
  - reflexivity.
  - reflexivity.
  - reflexivity.
  - reflexivity.
  - reflexivity.
  - intros c Hc.
    repeat (apply elem_of_cons in Hc as [Hc|Hc]; [discriminate Hc|]).
    apply elem_of_nil in Hc. destruct Hc.
  - exact H.
Defined.

(** ** Waiting for ever *)

(** X20: when the unacked list is emptied by another client after
    [ReturnUnackedDeliveries] has counted it and before its next pop-push,
    and nobody fills it again, the function does not return: its pop-push
    has no timeout and waits for an element. *)
Theorem ReturnUnackedDeliveries_hangs queue st u e :
  Redis.list_at (unackedKey queue) (store st) = Some u →
  u ≠ [] →
  env st = [at_rest; e] →
  others e = [Redis.Del (unackedKey queue)] →
  fault e = false →
  ∃ st', ReturnUnackedDeliveries queue st = (Blocked, st')
         ∧ store st' = delete (unackedKey queue) (store st)
         ∧ map fst (calls st')
           = map fst (calls st) ++ [Redis.LLen (unackedKey queue)].
Proof.
  intros Hu Hne He Hoth Hfault.
  assert (Hf : failing st = false) by (unfold failing; by rewrite He).
  assert (Harr : arriving st = store st) by (unfold arriving; by rewrite He).
  unfold ReturnUnackedDeliveries, mbind, M_bind.
  rewrite (LLen_list _ st u Hf) by (by rewrite Harr).
  simpl. rewrite Nat2Z.id.
  destruct u as [|x u]; [done|]. simpl.
  unfold Client.BRPopLPush, mbind, M_bind, call_waiting. simpl.
  rewrite He, Harr. simpl. rewrite Hfault, Hoth. simpl.
  assert (Hgone : ∀ s, Redis.rpoplpush (unackedKey queue) (readyKey queue)
                         (delete (unackedKey queue) s)
                       = (Redis.RNil, delete (unackedKey queue) s)).
  { intros s. unfold Redis.rpoplpush. by rewrite lookup_delete_eq. }
  destruct (store st !! unackedKey queue) eqn:E.
  - simpl. rewrite !Hgone. eexists. split; [reflexivity|]. simpl.
    split; [done|]. by rewrite app_nil_r, map_app.
  - simpl. unfold Redis.list_at in Hu. by rewrite E in Hu.
Qed.

Lemma ReturnUnackedDeliveries_hangs_witness :
  fst (ReturnUnackedDeliveries things
         (boot in_flight_store
            [at_rest;
             {| others := [Redis.Del (unackedKey things)]; fault := false |}]
            ""))
  = Blocked.
Proof.
  destruct (ReturnUnackedDeliveries_hangs things
              (boot in_flight_store
                 [at_rest;
                  {| others := [Redis.Del (unackedKey things)];
                     fault := false |}] "")
              ["b"; "a"]
              {| others := [Redis.Del (unackedKey things)];
                 fault := false |})
    as (st' & H & _).
  - reflexivity.
  - discriminate.
  - reflexivity.
  - reflexivity.
  - reflexivity.
  - by rewrite H.
Defined.
